(** * Store configuration manager (server/config/store_config.go)

    A shallow embedding of the Go package [config]: the [StoreConfig]
    snapshot with its defaulting accessors, and the [StoreConfigManager]
    that holds the current snapshot behind an atomically stored pointer. *)

From Stdlib Require Import ZArith Lia Ascii String DecimalString DecimalPos DecimalFacts.
From stdpp Require Import base option list strings pretty gmap.

Local Open Scope Z_scope.

(** ** Go base types *)

Module Go.

(** Heap addresses.  A Go pointer is either nil ([None]) or an address. *)
Definition loc := positive.

(** Go's [int] on a 64-bit target: a signed 64-bit integer, kept as a [Z]. *)
Definition is_int (z : Z) : Prop := - 2 ^ 63 <= z < 2 ^ 63.

(** Go's [uint64]. *)
Definition is_uint64 (z : Z) : Prop := 0 <= z < 2 ^ 64.

(** The conversion [uint64(x)] of a signed integer: the value modulo 2^64
    (two's complement). *)
Definition uint64 (z : Z) : Z := z mod 2 ^ 64.

(** Go's [error] interface values; [None] stands for the nil error. *)
Inductive error := Err (msg : string).

(** [[]byte]: a Rocq [string] is a sequence of 8-bit characters. *)
Definition bytes := string.

(** A call either returns or panics. *)
Inductive outcome (A : Type) :=
| Ret (a : A)
| Panic (msg : string).
Arguments Ret {A} a.
Arguments Panic {A} msg.

End Go.
Import Go.

(** ** The snapshot: [StoreConfig] and its accessors *)

(** [Coprocessor] is the config of coprocessor. *)
Record Coprocessor := mkCoprocessor {
  RegionMaxSize : string;   (* json:"region-max-size" *)
  RegionSplitSize : string; (* json:"region-split-size" *)
  RegionMaxKeys : Z;        (* int, json:"region-max-keys" *)
  RegionSplitKeys : Z       (* int, json:"region-split-keys" *)
}.

(** [StoreConfig] embeds [Coprocessor] under the key "coprocessor". *)
Record StoreConfig := mkStoreConfig {
  StoreConfig_Coprocessor : Coprocessor
}.

(** The zero value of [StoreConfig] ([var cfg StoreConfig]). *)
Definition zeroStoreConfig : StoreConfig :=
  mkStoreConfig (mkCoprocessor "" "" 0 0).

(** Well-formed snapshots keep their two counters in the range of [int]. *)
Definition wf_StoreConfig (c : StoreConfig) : Prop :=
  is_int (RegionMaxKeys (StoreConfig_Coprocessor c)) /\
  is_int (RegionSplitKeys (StoreConfig_Coprocessor c)).

(** A snapshot none of whose four fields is set. *)
Definition unset (s : StoreConfig) : Prop :=
  RegionMaxSize (StoreConfig_Coprocessor s) = "" /\
  RegionSplitSize (StoreConfig_Coprocessor s) = "" /\
  RegionMaxKeys (StoreConfig_Coprocessor s) = 0 /\
  RegionSplitKeys (StoreConfig_Coprocessor s) = 0.

(** default region max size is 144MB *)
Definition defaultRegionMaxSize : Z := uint64 144.
(** default region split size is 96MB *)
Definition defaultRegionSplitSize : Z := uint64 96.
(** default region max key *)
Definition defaultRegionMaxKey : Z := uint64 1440000.
(** default region split key *)
Definition defaultRegionSplitKey : Z := uint64 960000.

(** Functions of other packages that the snapshot's methods call.
    [typeutil.ParseMBFromText(text, value)] turns a size text into a number
    of MB; [json.MarshalIndent(v, prefix, indent)] returns the encoding and
    an error. *)
Class SnapshotDeps := {
  ParseMBFromText : string -> Z -> Z;
  json_MarshalIndent : option StoreConfig -> string -> string -> bytes * option error
}.

Section Snapshot.
Context {deps : SnapshotDeps}.

(** The receiver [c *StoreConfig] is [None] when it is nil. *)

(** [String] implements the [fmt.Stringer] interface. *)
Definition String (c : option StoreConfig) : string :=
  let '(data, err) := json_MarshalIndent c "" "  " in
  match err with
  | Some _ => "<nil>"
  | None => data
  end.

(** [GetRegionMaxSize] returns the max region size in MB. *)
Definition GetRegionMaxSize (c : option StoreConfig) : Z :=
  match c with
  | None => defaultRegionMaxSize
  | Some s =>
      if Nat.eqb (String.length (RegionMaxSize (StoreConfig_Coprocessor s))) 0
      then defaultRegionMaxSize
      else ParseMBFromText (RegionMaxSize (StoreConfig_Coprocessor s))
                           defaultRegionMaxSize
  end.

(** [GetRegionSplitSize] returns the region split size in MB. *)
Definition GetRegionSplitSize (c : option StoreConfig) : Z :=
  match c with
  | None => defaultRegionSplitSize
  | Some s =>
      if Nat.eqb (String.length (RegionSplitSize (StoreConfig_Coprocessor s))) 0
      then defaultRegionSplitSize
      else ParseMBFromText (RegionSplitSize (StoreConfig_Coprocessor s))
                           defaultRegionSplitSize
  end.

End Snapshot.

(** [GetRegionSplitKeys] returns the region split keys. *)
Definition GetRegionSplitKeys (c : option StoreConfig) : Z :=
  match c with
  | None => defaultRegionSplitKey
  | Some s =>
      if Z.eqb (RegionSplitKeys (StoreConfig_Coprocessor s)) 0
      then defaultRegionSplitKey
      else uint64 (RegionSplitKeys (StoreConfig_Coprocessor s))
  end.

(** [GetRegionMaxKeys] returns the region max keys. *)
Definition GetRegionMaxKeys (c : option StoreConfig) : Z :=
  match c with
  | None => defaultRegionMaxKey
  | Some s =>
      if Z.eqb (RegionMaxKeys (StoreConfig_Coprocessor s)) 0
      then defaultRegionMaxKey
      else uint64 (RegionMaxKeys (StoreConfig_Coprocessor s))
  end.

(** ** The manager *)

(** [http.Transport], reduced to the one field the constructor sets; a
    [*tls.Config] is a pointer. *)
Record http_Transport := mkTransport {
  TLSClientConfig : option loc
}.

(** [http.Client]; a nil [Transport] means the default transport. *)
Record http_Client := mkClient {
  Transport : option http_Transport
}.

(** The zero value [http.Client{}]. *)
Definition zeroClient : http_Client := mkClient None.

(** [StoreConfigManager] is used to manage the store config.  [config] is
    the [unsafe.Pointer] to the current [StoreConfig]. *)
Record StoreConfigManager := mkManager {
  config : option loc;
  client : http_Client;
  schema : string
}.

Definition set_config (p : option loc) (m : StoreConfigManager) : StoreConfigManager :=
  mkManager p (client m) (schema m).

(** *** Construction *)

Section Construction.
(** [SecurityConfig] and its method [ToTLSConfig] are declared elsewhere in
    the package; the method returns a [*tls.Config] and an error. *)
Context {SecurityConfig : Type}.
Variable ToTLSConfig : SecurityConfig -> option loc * option error.

(** [NewStoreConfigManager] creates a new [StoreConfigManager].  The result
    is the pointer to the new object. *)
Definition NewStoreConfigManager (config : option SecurityConfig)
  : option StoreConfigManager :=
  let manager := mkManager None zeroClient "http" in
  match config with
  | None => Some manager
  | Some sc =>
      match ToTLSConfig sc with
      | (Some cfg, None) =>
          Some (mkManager None
                  (mkClient (Some (mkTransport (Some cfg))))
                  "https")
      | _ => Some manager
      end
  end.

End Construction.

(** *** Update and read *)

(** [UpdateConfig] updates the config with given config map.  The receiver
    [m] is [None] when nil; the result is the receiver after the call. *)
Definition UpdateConfig (c : option loc) (m : option StoreConfigManager)
  : option StoreConfigManager :=
  match c, m with
  | Some p, Some mg => Some (set_config (Some p) mg) (* atomic.StorePointer *)
  | _, _ => m
  end.

(** [GetStoreConfig] returns the current store configuration. *)
Definition GetStoreConfig (m : option StoreConfigManager) : option loc :=
  match m with
  | None => None
  | Some mg =>
      match config mg with
      | None => None
      | Some _ => config mg (* atomic.LoadPointer *)
      end
  end.

(** *** Load *)

(** An [*http.Response], reduced to its [Body]: a handle on a stream whose
    content is part of the outside world. *)
Record http_Response := mkResponse {
  Body : positive
}.

(** What a call does to the outside, in order. *)
Inductive event :=
| EvGet (c : http_Client) (url : string)
| EvReadAll (body : positive)
| EvClose (body : positive)
| EvLogInfo (msg : string) (url : string) (cfg : loc).

(** The network, the standard library's decoder: [client.Get(url)],
    [ioutil.ReadAll(resp.Body)], [resp.Body.Close()] act on the outside
    world; [json.Unmarshal(body, &cfg)] takes the value [cfg] has, and
    returns the value it leaves there and an error. *)
Class LoadDeps (World : Type) := {
  http_Client_Get : http_Client -> string -> World -> (http_Response + error) * World;
  ioutil_ReadAll : positive -> World -> (bytes + error) * World;
  Body_Close : positive -> World -> World;
  json_Unmarshal : bytes -> StoreConfig -> StoreConfig * option error
}.

(** The memory holding the snapshots, the outside world and the events so
    far. *)
Record Machine (World : Type) := mkMachine {
  heap : gmap loc StoreConfig;
  world : World;
  events : list event
}.
Arguments mkMachine {World} heap world events.
Arguments heap {World} _.
Arguments world {World} _.
Arguments events {World} _.

(** The snapshot a pointer leads to. *)
Definition deref {World} (σ : Machine World) (p : option loc) : option StoreConfig :=
  match p with
  | None => None
  | Some l => heap σ !! l
  end.

Section Loading.
Context {World : Type} {deps : LoadDeps World}.

(** [fmt.Sprintf("%s://%s/config", m.schema, statusAddress)] *)
Definition config_url (schema statusAddress : string) : string :=
  schema +:+ "://" +:+ statusAddress +:+ "/config".

(** [Load] loads the store configuration.  The result is the returned
    error, the receiver after the call and the machine after the call. *)
Definition Load (statusAddress : string) (m : option StoreConfigManager)
    (σ : Machine World)
  : outcome (option error * option StoreConfigManager * Machine World) :=
  match m with
  | None => Panic "invalid memory address or nil pointer dereference"
  | Some mg =>
      let url := config_url (schema mg) statusAddress in
      let '(r, w1) := http_Client_Get (client mg) url (world σ) in
      let ev1 := events σ ++ [EvGet (client mg) url] in
      match r with
      | inr err => Ret (Some err, m, mkMachine (heap σ) w1 ev1)
      | inl resp =>
          (* defer resp.Body.Close() *)
          let '(b, w2) := ioutil_ReadAll (Body resp) w1 in
          let ev2 := ev1 ++ [EvReadAll (Body resp)] in
          match b with
          | inr err =>
              Ret (Some err, m,
                   mkMachine (heap σ) (Body_Close (Body resp) w2)
                             (ev2 ++ [EvClose (Body resp)]))
          | inl body =>
              (* var cfg StoreConfig *)
              let p := fresh (dom (heap σ)) in
              let '(cfg, e) := json_Unmarshal body zeroStoreConfig in
              let h := <[p := cfg]> (heap σ) in
              match e with
              | Some err =>
                  Ret (Some err, m,
                       mkMachine h (Body_Close (Body resp) w2)
                                 (ev2 ++ [EvClose (Body resp)]))
              | None =>
                  let ev3 := ev2 ++ [EvLogInfo "update store config successful" url p] in
                  Ret (None, UpdateConfig (Some p) m,
                       mkMachine h (Body_Close (Body resp) w2)
                                 (ev3 ++ [EvClose (Body resp)]))
              end
          end
      end
  end.

(** The four ways through [Load] on a non-nil manager. *)
Inductive Load_path (a : string) (mg : StoreConfigManager) (σ : Machine World)
  : option error -> option StoreConfigManager -> Machine World -> Prop :=
| Load_get_fails err w :
    http_Client_Get (client mg) (config_url (schema mg) a) (world σ) = (inr err, w) ->
    Load_path a mg σ (Some err) (Some mg)
      (mkMachine (heap σ) w (events σ ++ [EvGet (client mg) (config_url (schema mg) a)]))
| Load_read_fails resp w err w' :
    http_Client_Get (client mg) (config_url (schema mg) a) (world σ) = (inl resp, w) ->
    ioutil_ReadAll (Body resp) w = (inr err, w') ->
    Load_path a mg σ (Some err) (Some mg)
      (mkMachine (heap σ) (Body_Close (Body resp) w')
         (events σ ++ [EvGet (client mg) (config_url (schema mg) a);
                       EvReadAll (Body resp); EvClose (Body resp)]))
| Load_decode_fails resp w body w' cfg err :
    http_Client_Get (client mg) (config_url (schema mg) a) (world σ) = (inl resp, w) ->
    ioutil_ReadAll (Body resp) w = (inl body, w') ->
    json_Unmarshal body zeroStoreConfig = (cfg, Some err) ->
    Load_path a mg σ (Some err) (Some mg)
      (mkMachine (<[fresh (dom (heap σ)) := cfg]> (heap σ)) (Body_Close (Body resp) w')
         (events σ ++ [EvGet (client mg) (config_url (schema mg) a);
                       EvReadAll (Body resp); EvClose (Body resp)]))
| Load_succeeds resp w body w' cfg :
    http_Client_Get (client mg) (config_url (schema mg) a) (world σ) = (inl resp, w) ->
    ioutil_ReadAll (Body resp) w = (inl body, w') ->
    json_Unmarshal body zeroStoreConfig = (cfg, None) ->
    Load_path a mg σ None (Some (set_config (Some (fresh (dom (heap σ)))) mg))
      (mkMachine (<[fresh (dom (heap σ)) := cfg]> (heap σ)) (Body_Close (Body resp) w')
         (events σ ++ [EvGet (client mg) (config_url (schema mg) a);
                       EvReadAll (Body resp);
                       EvLogInfo "update store config successful"
                         (config_url (schema mg) a) (fresh (dom (heap σ)));
                       EvClose (Body resp)])).

(** *** Sequences of calls on one manager *)

Inductive op :=
| OpUpdateConfig (c : option loc)
| OpGetStoreConfig
| OpLoad (statusAddress : string).

Inductive retval :=
| RetUnit
| RetConfig (c : option loc)
| RetError (e : option error).

(** The caller's manager pointer and the machine. *)
Definition state : Type := option StoreConfigManager * Machine World.

Definition exec (o : op) (s : state) : outcome (retval * state) :=
  match o with
  | OpUpdateConfig c => Ret (RetUnit, (UpdateConfig c (fst s), snd s))
  | OpGetStoreConfig => Ret (RetConfig (GetStoreConfig (fst s)), s)
  | OpLoad a =>
      match Load a (fst s) (snd s) with
      | Ret (e, m', σ') => Ret (RetError e, (m', σ'))
      | Panic msg => Panic msg
      end
  end.

Fixpoint run (ops : list op) (s : state) : outcome (list retval * state) :=
  match ops with
  | [] => Ret ([], s)
  | o :: rest =>
      match exec o s with
      | Panic msg => Panic msg
      | Ret (r, s') =>
          match run rest s' with
          | Panic msg => Panic msg
          | Ret (rs, s'') => Ret (r :: rs, s'')
          end
      end
  end.

(** A call that succeeds in replacing the snapshot: an update with a
    non-nil snapshot, or a load that returned no error. *)
Definition replaces (o : op) (r : retval) : Prop :=
  match o, r with
  | OpUpdateConfig (Some _), _ => True
  | OpLoad _, RetError None => True
  | _, _ => False
  end.

End Loading.

Arguments Load : simpl never.

(** ** Goroutines sharing one manager

    Several goroutines call [UpdateConfig] and [GetStoreConfig] on the same
    non-nil manager.  A step of the system is one access to [m.config] by
    one goroutine: the plain read in [GetStoreConfig]'s nil test, its
    [atomic.LoadPointer], or [UpdateConfig]'s [atomic.StorePointer].  No
    step writes a snapshot. *)

Module Interleaving.

Inductive call :=
| CallUpdateConfig (c : option loc)
| CallGetStoreConfig.

(** Where a goroutine stands in the call at the head of its program. *)
Inductive position :=
| AtEntry
| BeforeStore (c : loc) (* UpdateConfig: the nil tests passed, store pending *)
| BeforeLoad.           (* GetStoreConfig: m.config != nil seen, load pending *)

Record goroutine := mkGoroutine {
  program : list call;
  pos : position
}.

(** What an observer of the system sees: the stores done and the values
    returned by [GetStoreConfig], each with the goroutine's number.  A
    [Returned] event is recorded at the access to [m.config] that decides
    the result; the call returns then or later, so what is before the event
    is before the return. *)
Inductive cevent :=
| Stored (tid : nat) (c : loc)
| Returned (tid : nat) (r : option loc).

Record system := mkSystem {
  mem : gmap loc StoreConfig;
  slot : option loc; (* m.config *)
  pool : list goroutine;
  trace : list cevent
}.

(** One step of goroutine [tid]: the goroutine after it, the content of
    [m.config] after it, and what it shows. *)
Definition goroutine_step (tid : nat) (g : goroutine) (sl : option loc)
  : option (goroutine * option loc * list cevent) :=
  match program g, pos g with
  | CallUpdateConfig None :: rest, AtEntry =>
      Some (mkGoroutine rest AtEntry, sl, [])
  | CallUpdateConfig (Some c) :: _, AtEntry =>
      Some (mkGoroutine (program g) (BeforeStore c), sl, [])
  | CallUpdateConfig _ :: rest, BeforeStore c =>
      Some (mkGoroutine rest AtEntry, Some c, [Stored tid c])
  | CallGetStoreConfig :: rest, AtEntry =>
      match sl with
      | None => Some (mkGoroutine rest AtEntry, sl, [Returned tid None])
      | Some _ => Some (mkGoroutine (program g) BeforeLoad, sl, [])
      end
  | CallGetStoreConfig :: rest, BeforeLoad =>
      Some (mkGoroutine rest AtEntry, sl, [Returned tid sl])
  | _, _ => None
  end.

(** The scheduler picks goroutine [tid]; a goroutine that has finished, or a
    number that names none, leaves the system as it is. *)
Definition step_at (tid : nat) (s : system) : system :=
  match pool s !! tid with
  | None => s
  | Some g =>
      match goroutine_step tid g (slot s) with
      | None => s
      | Some (g', sl', evs) =>
          mkSystem (mem s) sl' (<[tid := g']> (pool s)) (trace s ++ evs)
      end
  end.

Definition run_schedule (schedule : list nat) (s : system) : system :=
  fold_left (fun s tid => step_at tid s) schedule s.

(** The start: nothing held, every goroutine at the entry of its first
    call. *)
Definition initial (h : gmap loc StoreConfig) (programs : list (list call)) : system :=
  mkSystem h None (map (fun p => mkGoroutine p AtEntry) programs) [].

(** One goroutine alone, with one call to make on a manager whose
    [m.config] is [sl]. *)
Definition solo (k : call) (sl : option loc) : system :=
  mkSystem ∅ sl [mkGoroutine [k] AtEntry] [].

(** What holds of every system reached from [initial h programs]: the
    memory is [h]; a goroutine has calls of its program left, and the
    pointer it is about to store was passed to one of them; the pointer in
    [m.config] was stored; a pointer stored by a goroutine was passed to an
    [UpdateConfig] of its program; a pointer returned was stored before. *)
Definition reachable_inv (h : gmap loc StoreConfig) (programs : list (list call))
    (s : system) : Prop :=
  mem s = h /\
  (forall tid g, pool s !! tid = Some g ->
     exists p0, programs !! tid = Some p0 /\
                (forall k, k ∈ program g -> k ∈ p0) /\
                (forall c, pos g = BeforeStore c -> CallUpdateConfig (Some c) ∈ p0)) /\
  (forall c, slot s = Some c -> exists w, Stored w c ∈ trace s) /\
  (forall w c, Stored w c ∈ trace s ->
     exists p0, programs !! w = Some p0 /\ CallUpdateConfig (Some c) ∈ p0) /\
  (forall before tid c after,
     trace s = before ++ Returned tid (Some c) :: after ->
     exists w, Stored w c ∈ before).

End Interleaving.

(** ** Stand-ins for the other packages, to run the definitions *)

Module Stub.

(** The double quote and the line feed. *)
Definition dq : string := String.String "034"%char EmptyString.
Definition lf : string := String.String "010"%char EmptyString.
Definition quoted (s : string) : string := dq +:+ s +:+ dq.

(** The indented text of a snapshot, for strings that need no escape. *)
Definition render (prefix indent : string) (s : StoreConfig) : string :=
  let c := StoreConfig_Coprocessor s in
  let field (name value sep : string) :=
    prefix +:+ indent +:+ indent +:+ quoted name +:+ ": " +:+ value +:+ sep +:+ lf in
  "{" +:+ lf +:+
  prefix +:+ indent +:+ quoted "coprocessor" +:+ ": {" +:+ lf +:+
  field "region-max-size" (quoted (RegionMaxSize c)) "," +:+
  field "region-split-size" (quoted (RegionSplitSize c)) "," +:+
  field "region-max-keys" (pretty (RegionMaxKeys c)) "," +:+
  field "region-split-keys" (pretty (RegionSplitKeys c)) "" +:+
  prefix +:+ indent +:+ "}" +:+ lf +:+
  prefix +:+ "}".

(** A size parser that knows two texts, and an encoder that never fails;
    the nil pointer is encoded as [null]. *)
#[export] Instance snapshot_deps : SnapshotDeps := {
  ParseMBFromText text value :=
    if String.eqb text "200MB" then 200
    else if String.eqb text "1GB" then 1024
    else value;
  json_MarshalIndent c prefix indent :=
    match c with
    | None => ("null", None)
    | Some s => (render prefix indent s, None)
    end
}.

(** The same with an encoder that always fails. *)
Definition broken_encoder : SnapshotDeps := {|
  ParseMBFromText text value := value;
  json_MarshalIndent c prefix indent := ("", Some (Err "unsupported value"))
|}.

(** The body of the status endpoint of a store that sets two fields. *)
Definition good_body : bytes :=
  "{" +:+ quoted "coprocessor" +:+ ":{" +:+
  quoted "region-max-size" +:+ ":" +:+ quoted "200MB" +:+ "," +:+
  quoted "region-max-keys" +:+ ":5000}}".

Definition good_config : StoreConfig :=
  mkStoreConfig (mkCoprocessor "200MB" "" 5000 0).

(** A network of three stores: the first answers [good_body], the second
    answers text that does not decode, the third breaks while the body is
    read; no other address can be reached.  The world counts the requests. *)
#[export] Instance load_deps : LoadDeps nat := {
  http_Client_Get c url w :=
    if String.eqb url "http://tikv-0:20180/config" then (inl (mkResponse 1), S w)
    else if String.eqb url "http://tikv-1:20180/config" then (inl (mkResponse 2), S w)
    else if String.eqb url "http://tikv-2:20180/config" then (inl (mkResponse 3), S w)
    else (inr (Err "connection refused"), S w);
  ioutil_ReadAll b w :=
    if Pos.eqb b 1 then (inl good_body, w)
    else if Pos.eqb b 2 then (inl "<html>", w)
    else (inr (Err "unexpected EOF"), w);
  Body_Close b w := w;
  json_Unmarshal body cfg :=
    if String.eqb body good_body then (good_config, None)
    else (cfg, Some (Err "invalid character"))
}.

(** A security configuration is a certificate path here; the empty path
    gives no TLS configuration and no error, [bad] gives an error. *)
Definition ToTLSConfig (sc : string) : option loc * option error :=
  if String.eqb sc "" then (None, None)
  else if String.eqb sc "bad" then (None, Some (Err "could not load certificate"))
  else (Some 7%positive, None).

Definition plain_manager : StoreConfigManager := mkManager None zeroClient "http".

Definition empty_machine : Machine nat := mkMachine ∅ 0%nat [].

(** A machine whose memory has one snapshot, at address 5. *)
Definition one_snapshot : Machine nat :=
  mkMachine {[ 5%positive := good_config ]} 0%nat [].

(** Calls none of which replaces the snapshot on this network. *)
Definition idle_calls : list op :=
  [OpGetStoreConfig; OpLoad "nowhere:1"; OpUpdateConfig None;
   OpLoad "tikv-1:20180"; OpLoad "tikv-2:20180"; OpGetStoreConfig].

(** Calls with a load that succeeds in the middle. *)
Definition busy_calls : list op :=
  [OpLoad "nowhere:1"; OpGetStoreConfig; OpLoad "tikv-0:20180";
   OpUpdateConfig None; OpGetStoreConfig].

(** Two snapshots in memory; a writer that publishes one after the other,
    and a reader that asks twice. *)
Definition two_snapshots : gmap loc StoreConfig :=
  {[ 5%positive := good_config; 6%positive := zeroStoreConfig ]}.

Definition writer_and_reader : list (list Interleaving.call) :=
  [[Interleaving.CallUpdateConfig (Some 5%positive);
    Interleaving.CallUpdateConfig (Some 6%positive)];
   [Interleaving.CallGetStoreConfig; Interleaving.CallGetStoreConfig]].

(** The reader's first call finds nothing; its second call sees a non-nil
    pointer while address 5 is held and loads after address 6 is stored. *)
Definition a_schedule : list nat := [1; 0; 0; 1; 0; 0; 1]%nat.

End Stub.

(** ** Observations on events, calls and goroutines *)

(** The requests among the events: the client and the URL of each GET. *)
Fixpoint requests (evs : list event) : list (http_Client * string) :=
  match evs with
  | [] => []
  | EvGet c url :: rest => (c, url) :: requests rest
  | _ :: rest => requests rest
  end.

(** The addresses of the [Load] calls among the calls. *)
Fixpoint load_addresses (ops : list op) : list string :=
  match ops with
  | [] => []
  | OpLoad a :: rest => a :: load_addresses rest
  | _ :: rest => load_addresses rest
  end.

(** Events on a response body. *)
Definition on_body (ev : event) : Prop :=
  match ev with
  | EvReadAll _ | EvClose _ => True
  | _ => False
  end.

(** The log lines among the events: the URL and the pointer of each. *)
Fixpoint logged (evs : list event) : list (string * loc) :=
  match evs with
  | [] => []
  | EvLogInfo _ url p :: rest => (url, p) :: logged rest
  | _ :: rest => logged rest
  end.

(** [UpdateConfig] called with each pointer of a list, in order. *)
Definition updates (cs : list (option loc)) (m : option StoreConfigManager)
  : option StoreConfigManager :=
  fold_left (fun m c => UpdateConfig c m) cs m.

(** The manager's pointer is nil or leads to a snapshot in memory. *)
Definition held_valid {World} (m : option StoreConfigManager) (σ : Machine World) : Prop :=
  forall p, GetStoreConfig m = Some p -> is_Some (heap σ !! p).

(** The pointers that the calls pass to [UpdateConfig] lead to snapshots in
    memory. *)
Definition args_valid {World} (ops : list op) (σ : Machine World) : Prop :=
  forall p, OpUpdateConfig (Some p) ∈ ops -> is_Some (heap σ !! p).

Module InterleavingMeasures.
Import Interleaving.

(** The position of a goroutine fits the call at the head of its program. *)
Definition pos_ok (g : goroutine) : Prop :=
  match pos g with
  | AtEntry => True
  | BeforeStore c => exists rest, program g = CallUpdateConfig (Some c) :: rest
  | BeforeLoad => exists rest, program g = CallGetStoreConfig :: rest
  end.

End InterleavingMeasures.

(** Further stand-ins. *)
Module Stub2.

(** A manager for the same network that holds the snapshot at address 5. *)
Definition loaded_manager : StoreConfigManager :=
  mkManager (Some 5%positive) zeroClient "http".

(** Updates, the last non-nil one with address 6. *)
Definition some_updates : list (option loc) :=
  [Some 5%positive; None; Some 6%positive; None; None].

(** Calls that pass address 5 and load twice from the first store. *)
Definition valid_calls : list op :=
  [OpUpdateConfig (Some 5%positive); OpLoad "tikv-0:20180"; OpGetStoreConfig;
   OpLoad "tikv-1:20180"; OpLoad "tikv-0:20180"; OpUpdateConfig None].

End Stub2.

(** ** The encoder that [String] calls

    [json.MarshalIndent] is part of Go's standard library, package
    [encoding/json].  This module has what it does on a [*StoreConfig]:
    strings, integers, structs with tagged fields, the nil pointer.  The
    names of the members are the struct tags of [StoreConfig] and
    [Coprocessor]. *)

Module Json.

(** A JSON value, as far as this encoder needs it. *)
Inductive value :=
| Null
| Str (s : string)
| Num (z : Z)
| Obj (ms : members)
with members :=
| MNil
| MCons (key : string) (v : value) (rest : members).

Definition byte (a : ascii) : N := N_of_ascii a.

Definition hex (n : N) : ascii :=
  match n with
  | 0 => "0" | 1 => "1" | 2 => "2" | 3 => "3" | 4 => "4" | 5 => "5"
  | 6 => "6" | 7 => "7" | 8 => "8" | 9 => "9" | 10 => "a" | 11 => "b"
  | 12 => "c" | 13 => "d" | 14 => "e" | _ => "f"
  end%N%char.

Definition within (lo hi : N) (a : ascii) : bool :=
  (lo <=? byte a)%N && (byte a <=? hi)%N.

(** [htmlSafeSet], for a byte below 0x80: all but the control characters,
    the double quote, the backslash, and [&], [<], [>]. *)
Definition htmlSafe (a : ascii) : bool :=
  let b := byte a in
  (32 <=? b)%N && negb (b =? 34)%N && negb (b =? 38)%N && negb (b =? 60)%N
  && negb (b =? 62)%N && negb (b =? 92)%N.

(** What is written for a byte below 0x80 that is not safe.  Releases of Go
    from 1.22 on write the bytes 8 and 12 as [\b] and [\f], earlier ones as
    [\u0008] and [\u000c]; [short_bf] tells which. *)
Definition escape_byte (short_bf : bool) (a : ascii) : string :=
  let b := byte a in
  if ((b =? 92) || (b =? 34))%N then String.String "\" (String.String a EmptyString)
  else if (b =? 10)%N then "\n"
  else if (b =? 13)%N then "\r"
  else if (b =? 9)%N then "\t"
  else if (short_bf && (b =? 8)%N) then "\b"
  else if (short_bf && (b =? 12)%N) then "\f"
  else "\u00" +:+ String.String (hex (N.shiftr b 4))
                    (String.String (hex (N.land b 15)) EmptyString).

Definition RuneError : N := 0xFFFD.

(** The table [first] of package [unicode/utf8]: what a leading byte of
    0x80 or more announces, the size of the sequence and the range of its
    second byte. *)
Inductive lead :=
| LeadInvalid
| Lead (size : nat) (lo hi : N).

Definition first (b : N) : lead :=
  if (b <? 0xC2)%N then LeadInvalid
  else if (b <=? 0xDF)%N then Lead 2 0x80 0xBF
  else if (b =? 0xE0)%N then Lead 3 0xA0 0xBF
  else if (b =? 0xED)%N then Lead 3 0x80 0x9F
  else if (b <=? 0xEF)%N then Lead 3 0x80 0xBF
  else if (b =? 0xF0)%N then Lead 4 0x90 0xBF
  else if (b <=? 0xF3)%N then Lead 4 0x80 0xBF
  else if (b =? 0xF4)%N then Lead 4 0x80 0x8F
  else LeadInvalid.

Definition cont_bits (a : ascii) : N := N.land (byte a) 0x3F.

(** [utf8.DecodeRuneInString]: the rune at the head of a string and the
    number of bytes it takes; [(RuneError, 1)] for a byte that starts no
    well-formed sequence. *)
Definition DecodeRuneInString (s : string) : N * nat :=
  match s with
  | EmptyString => (RuneError, 0%nat)
  | String.String a0 rest =>
      let b0 := byte a0 in
      if (b0 <? 0x80)%N then (b0, 1%nat)
      else
        match first b0, rest with
        | Lead sz lo hi, String.String a1 r1 =>
            if within lo hi a1 then
              match sz, r1 with
              | 2%nat, _ =>
                  (N.lor (N.shiftl (N.land b0 0x1F) 6) (cont_bits a1), 2%nat)
              | 3%nat, String.String a2 _ =>
                  if within 0x80 0xBF a2 then
                    (N.lor (N.shiftl (N.land b0 0x0F) 12)
                       (N.lor (N.shiftl (cont_bits a1) 6) (cont_bits a2)), 3%nat)
                  else (RuneError, 1%nat)
              | 4%nat, String.String a2 (String.String a3 _) =>
                  if within 0x80 0xBF a2 && within 0x80 0xBF a3 then
                    (N.lor (N.shiftl (N.land b0 0x07) 18)
                       (N.lor (N.shiftl (cont_bits a1) 12)
                          (N.lor (N.shiftl (cont_bits a2) 6) (cont_bits a3))), 4%nat)
                  else (RuneError, 1%nat)
              | _, _ => (RuneError, 1%nat)
              end
            else (RuneError, 1%nat)
        | _, _ => (RuneError, 1%nat)
        end
  end.

(** Where the loop of the string encoder stands: at the start of a rune, or
    inside a rune of which [n] more bytes are to be copied, or passed over. *)
Inductive mode :=
| Scan
| Copy (n : nat)
| Skip (n : nat).

(** The loop of the string encoder, with HTML escaping: safe bytes and
    well-formed runes are copied; the other bytes below 0x80 are escaped;
    a byte that starts no well-formed sequence becomes the escape of U+FFFD; U+2028 and
    U+2029 become their escapes. *)
Fixpoint escape (short_bf : bool) (m : mode) (s : string) : string :=
  match s with
  | EmptyString => EmptyString
  | String.String a rest =>
      match m with
      | Copy (S n) => String.String a (escape short_bf (Copy n) rest)
      | Skip (S n) => escape short_bf (Skip n) rest
      | _ =>
          if (byte a <? 0x80)%N then
            (if htmlSafe a then String.String a EmptyString
             else escape_byte short_bf a)
            +:+ escape short_bf Scan rest
          else
            let '(c, size) := DecodeRuneInString s in
            if (c =? RuneError)%N && Nat.eqb size 1 then
              "\ufffd" +:+ escape short_bf Scan rest
            else if ((c =? 0x2028) || (c =? 0x2029))%N then
              "\u202" +:+ String.String (hex (N.land c 15))
                        (escape short_bf (Skip (size - 1)) rest)
            else String.String a (escape short_bf (Copy (size - 1)) rest)
      end
  end.

(** The first [n] bytes of a string, as many as there are, are 0x80 or
    more; a rune that the loop copies has such bytes. *)
Fixpoint high_prefix (n : nat) (s : string) : bool :=
  match n, s with
  | S k, String.String a rest => (0x80 <=? byte a)%N && high_prefix k rest
  | _, _ => true
  end.

Definition mode_ok (m : mode) (s : string) : bool :=
  match m with
  | Copy n => high_prefix n s
  | _ => true
  end.

(** The double quote and the line feed. *)
Definition dq : string := String.String "034"%char EmptyString.
Definition lf : string := String.String "010"%char EmptyString.

Definition quote (short_bf : bool) (s : string) : string :=
  dq +:+ escape short_bf Scan s +:+ dq.

(** [strconv.AppendInt(dst, v, 10)] *)
Definition FormatInt (z : Z) : string := NilZero.string_of_int (Z.to_int z).

Fixpoint copies (n : nat) (s : string) : string :=
  match n with
  | O => EmptyString
  | S k => s +:+ copies k s
  end.

(** A new line at a depth: the line feed, the prefix, and as many copies of
    the indent as the depth. *)
Definition newline (prefix indent : string) (depth : nat) : string :=
  lf +:+ prefix +:+ copies depth indent.

(** The indented text of a value: each member of an object begins on a new
    line one level deeper, a space follows the colon, and the closing brace
    is on a line of its own at the level of the object. *)
Fixpoint encode (short_bf : bool) (prefix indent : string) (depth : nat) (v : value)
  : string :=
  match v with
  | Null => "null"
  | Str s => quote short_bf s
  | Num z => FormatInt z
  | Obj MNil => "{}"
  | Obj ms => "{" +:+ encode_members short_bf prefix indent depth ms +:+ "}"
  end
with encode_members (short_bf : bool) (prefix indent : string) (depth : nat)
    (ms : members) : string :=
  match ms with
  | MNil => EmptyString
  | MCons k v rest =>
      newline prefix indent (S depth) +:+ quote short_bf k +:+ ": " +:+
      encode short_bf prefix indent (S depth) v +:+
      match rest with
      | MNil => newline prefix indent depth
      | _ => "," +:+ encode_members short_bf prefix indent depth rest
      end
  end.

(** The value of a [*StoreConfig]: [null] for the nil pointer; the embedded
    [Coprocessor] has the tag [coprocessor] and is a member of that name. *)
Definition of_Coprocessor (c : Coprocessor) : value :=
  Obj (MCons "region-max-size" (Str (RegionMaxSize c))
      (MCons "region-split-size" (Str (RegionSplitSize c))
      (MCons "region-max-keys" (Num (RegionMaxKeys c))
      (MCons "region-split-keys" (Num (RegionSplitKeys c)) MNil)))).

Definition of_StoreConfig (c : option StoreConfig) : value :=
  match c with
  | None => Null
  | Some s => Obj (MCons "coprocessor" (of_Coprocessor (StoreConfig_Coprocessor s)) MNil)
  end.

(** [json.MarshalIndent(c, prefix, indent)] for [c *StoreConfig].  Strings
    and integers always encode, so the error is nil. *)
Definition MarshalIndent (short_bf : bool) (c : option StoreConfig)
    (prefix indent : string) : bytes * option error :=
  (encode short_bf prefix indent 0 (of_StoreConfig c), None).

(** The snapshot's methods with this encoder and any size parser. *)
Definition deps (parse : string -> Z -> Z) (short_bf : bool) : SnapshotDeps := {|
  ParseMBFromText := parse;
  json_MarshalIndent := MarshalIndent short_bf
|}.

(** *** The grammar of JSON texts (RFC 8259) *)

Fixpoint all_chars (p : ascii -> bool) (s : string) : bool :=
  match s with
  | EmptyString => true
  | String.String a rest => p a && all_chars p rest
  end.

(** Space, horizontal tab, line feed, carriage return. *)
Definition is_ws (a : ascii) : bool :=
  let b := byte a in ((b =? 32) || (b =? 9) || (b =? 10) || (b =? 13))%N.

Definition ws (s : string) : bool := all_chars is_ws s.

(** A byte that is no control character; a text of such bytes has no line
    feed in it. *)
Definition printable (a : ascii) : bool := (32 <=? byte a)%N.

Definition is_digit (a : ascii) : bool := within 48 57 a.

Definition is_hex (a : ascii) : bool :=
  is_digit a || within 97 102 a || within 65 70 a.

(** The character after the backslash of a two-character escape: one of
    the double quote, the backslash, [/], [b], [f], [n], [r], [t]. *)
Definition is_short_escape (a : ascii) : bool :=
  let b := byte a in
  ((b =? 34) || (b =? 92) || (b =? 47) || (b =? 98) || (b =? 102) || (b =? 110)
   || (b =? 114) || (b =? 116))%N.

(** The characters between the quotes of a string: no control character,
    no double quote, and a backslash only as the start of an escape. *)
Fixpoint chars (s : string) : bool :=
  match s with
  | EmptyString => true
  | String.String a rest =>
      if (byte a =? 92)%N then
        match rest with
        | String.String e r1 =>
            if is_short_escape e then chars r1
            else if (byte e =? 117)%N then
              match r1 with
              | String.String h1 (String.String h2 (String.String h3 (String.String h4 r5))) =>
                  is_hex h1 && is_hex h2 && is_hex h3 && is_hex h4 && chars r5
              | _ => false
              end
            else false
        | EmptyString => false
        end
      else (32 <=? byte a)%N && negb (byte a =? 34)%N && chars rest
  end.

(** Where the reading of a number stands: at its start, after the minus
    sign, after a leading zero, in the integer part, after the point, in
    the fraction, after the [e], after the sign of the exponent, in the
    exponent. *)
Inductive number_state :=
| NStart | NMinus | NZero | NInt | NDot | NFrac | NE | NESign | NExp.

Definition number_step (st : number_state) (a : ascii) : option number_state :=
  let b := byte a in
  match st with
  | NStart =>
      if (b =? 45)%N then Some NMinus
      else if (b =? 48)%N then Some NZero
      else if is_digit a then Some NInt else None
  | NMinus =>
      if (b =? 48)%N then Some NZero
      else if is_digit a then Some NInt else None
  | NZero =>
      if (b =? 46)%N then Some NDot
      else if ((b =? 101) || (b =? 69))%N then Some NE else None
  | NInt =>
      if is_digit a then Some NInt
      else if (b =? 46)%N then Some NDot
      else if ((b =? 101) || (b =? 69))%N then Some NE else None
  | NDot => if is_digit a then Some NFrac else None
  | NFrac =>
      if is_digit a then Some NFrac
      else if ((b =? 101) || (b =? 69))%N then Some NE else None
  | NE =>
      if ((b =? 43) || (b =? 45))%N then Some NESign
      else if is_digit a then Some NExp else None
  | NESign => if is_digit a then Some NExp else None
  | NExp => if is_digit a then Some NExp else None
  end.

Fixpoint number_from (st : number_state) (s : string) : bool :=
  match s with
  | EmptyString =>
      match st with
      | NZero | NInt | NFrac | NExp => true
      | _ => false
      end
  | String.String a rest =>
      match number_step st a with
      | Some st' => number_from st' rest
      | None => false
      end
  end.

Definition number (s : string) : bool := number_from NStart s.

(** The texts of values, members and elements. *)
Inductive value_text : string -> Prop :=
| text_null : value_text "null"
| text_true : value_text "true"
| text_false : value_text "false"
| text_number t : number t = true -> value_text t
| text_string body : chars body = true -> value_text (dq +:+ body +:+ dq)
| text_empty_object w : ws w = true -> value_text ("{" +:+ w +:+ "}")
| text_object ms : members_text ms -> value_text ("{" +:+ ms +:+ "}")
| text_empty_array w : ws w = true -> value_text ("[" +:+ w +:+ "]")
| text_array es : elements_text es -> value_text ("[" +:+ es +:+ "]")
with members_text : string -> Prop :=
| members_one m : member_text m -> members_text m
| members_more m ms :
    member_text m -> members_text ms -> members_text (m +:+ "," +:+ ms)
with member_text : string -> Prop :=
| member_intro w1 body w2 e :
    ws w1 = true -> chars body = true -> ws w2 = true -> element_text e ->
    member_text (w1 +:+ dq +:+ body +:+ dq +:+ w2 +:+ ":" +:+ e)
with elements_text : string -> Prop :=
| elements_one e : element_text e -> elements_text e
| elements_more e es :
    element_text e -> elements_text es -> elements_text (e +:+ "," +:+ es)
with element_text : string -> Prop :=
| element_intro w1 v w2 :
    ws w1 = true -> value_text v -> ws w2 = true ->
    element_text (w1 +:+ v +:+ w2).

(** A JSON text is an element. *)
Definition text (s : string) : Prop := element_text s.

(** Lines joined by line feeds. *)
Fixpoint unlines (ls : list string) : string :=
  match ls with
  | [] => EmptyString
  | [l] => l
  | l :: rest => l +:+ lf +:+ unlines rest
  end.

End Json.

(** * Properties *)

(** ** Integer conversions *)

Lemma uint64_range z : is_uint64 (uint64 z).
Proof. unfold is_uint64, uint64. apply Z.mod_pos_bound. lia. Qed.

Lemma uint64_nonneg z : is_int z -> 0 <= z -> uint64 z = z.
Proof. unfold is_int, uint64. intros Hz H0. apply Z.mod_small. lia. Qed.

Lemma uint64_neg z : is_int z -> z < 0 -> uint64 z = 2 ^ 64 + z.
Proof.
  unfold is_int, uint64. intros Hz H0.
  symmetry. apply (Z.mod_unique_pos _ _ (-1)); lia.
Qed.

Lemma defaults_values :
  defaultRegionMaxSize = 144 /\ defaultRegionSplitSize = 96 /\
  defaultRegionMaxKey = 1440000 /\ defaultRegionSplitKey = 960000.
Proof. repeat split; reflexivity. Qed.

(** ** Accessors *)

(** C2: on the nil snapshot, and on every snapshot whose two size strings
    are empty and whose two key counts are zero, the four accessors return
    144, 96, 1440000 and 960000, whatever the size parser does. *)
Theorem accessors_default {deps : SnapshotDeps} (c : option StoreConfig) :
  (c = None \/ exists s, c = Some s /\ unset s) ->
  GetRegionMaxSize c = 144 /\
  GetRegionSplitSize c = 96 /\
  GetRegionMaxKeys c = 1440000 /\
  GetRegionSplitKeys c = 960000.
Proof.
  intros [-> | (s & -> & Hms & Hss & Hmk & Hsk)].
  - repeat split; reflexivity.
  - unfold GetRegionMaxSize, GetRegionSplitSize, GetRegionMaxKeys,
      GetRegionSplitKeys.
    rewrite Hms, Hss, Hmk, Hsk. repeat split; reflexivity.
Qed.

Lemma accessors_default_witness :
  (@GetRegionMaxSize Stub.snapshot_deps None = 144 /\
   @GetRegionSplitSize Stub.snapshot_deps None = 96 /\
   GetRegionMaxKeys None = 1440000 /\ GetRegionSplitKeys None = 960000) /\
  (@GetRegionMaxSize Stub.snapshot_deps (Some zeroStoreConfig) = 144 /\
   @GetRegionSplitSize Stub.snapshot_deps (Some zeroStoreConfig) = 96 /\
   GetRegionMaxKeys (Some zeroStoreConfig) = 1440000 /\
   GetRegionSplitKeys (Some zeroStoreConfig) = 960000).
Proof.
  split.
  - apply (accessors_default None). left. reflexivity.
  - apply (accessors_default (Some zeroStoreConfig)). right.
    exists zeroStoreConfig. repeat split; reflexivity.
Defined.

(** C8: on a non-nil snapshot, [GetRegionMaxKeys] returns the conversion to
    [uint64] of a nonzero [RegionMaxKeys], which is the field itself when it
    is positive, and 1440000 when the field is zero; [GetRegionSplitKeys]
    does the same with [RegionSplitKeys] and 960000. *)
Theorem keys_accessors (s : StoreConfig) :
  wf_StoreConfig s ->
  let mk := RegionMaxKeys (StoreConfig_Coprocessor s) in
  let sk := RegionSplitKeys (StoreConfig_Coprocessor s) in
  (mk <> 0 -> GetRegionMaxKeys (Some s) = uint64 mk) /\
  (0 < mk -> GetRegionMaxKeys (Some s) = mk) /\
  (mk = 0 -> GetRegionMaxKeys (Some s) = 1440000) /\
  (sk <> 0 -> GetRegionSplitKeys (Some s) = uint64 sk) /\
  (0 < sk -> GetRegionSplitKeys (Some s) = sk) /\
  (sk = 0 -> GetRegionSplitKeys (Some s) = 960000) /\
  is_uint64 (GetRegionMaxKeys (Some s)) /\
  is_uint64 (GetRegionSplitKeys (Some s)).
Proof.
  intros [Hmk Hsk] mk sk. fold mk in Hmk. fold sk in Hsk.
  unfold GetRegionMaxKeys, GetRegionSplitKeys. fold mk sk.
  repeat split.
  - intros Hne. apply Z.eqb_neq in Hne. rewrite Hne. reflexivity.
  - intros Hpos. destruct (Z.eqb_spec mk 0) as [E | _]; [lia |].
    apply uint64_nonneg; [assumption | lia].
  - intros ->. reflexivity.
  - intros Hne. apply Z.eqb_neq in Hne. rewrite Hne. reflexivity.
  - intros Hpos. destruct (Z.eqb_spec sk 0) as [E | _]; [lia |].
    apply uint64_nonneg; [assumption | lia].
  - intros ->. reflexivity.
  - destruct (mk =? 0); [vm_compute; intuition congruence | apply uint64_range].
  - destruct (mk =? 0); [vm_compute; intuition congruence | apply uint64_range].
  - destruct (sk =? 0); [vm_compute; intuition congruence | apply uint64_range].
  - destruct (sk =? 0); [vm_compute; intuition congruence | apply uint64_range].
Qed.

Lemma keys_accessors_witness :
  GetRegionMaxKeys (Some Stub.good_config) = 5000 /\
  GetRegionSplitKeys (Some Stub.good_config) = 960000.
Proof.
  assert (Hwf : wf_StoreConfig Stub.good_config)
    by (split; vm_compute; split; congruence).
  pose proof (keys_accessors Stub.good_config Hwf) as (_ & Hpos & _ & _ & _ & Hz & _).
  split.
  - apply Hpos. reflexivity.
  - apply Hz. reflexivity.
Defined.

(** C10: on a non-nil snapshot whose [RegionMaxKeys] (or [RegionSplitKeys])
    is negative, the accessor returns 2^64 plus the field, which is not the
    default. *)
Theorem keys_accessors_negative (s : StoreConfig) :
  wf_StoreConfig s ->
  let mk := RegionMaxKeys (StoreConfig_Coprocessor s) in
  let sk := RegionSplitKeys (StoreConfig_Coprocessor s) in
  (mk < 0 ->
   GetRegionMaxKeys (Some s) = 2 ^ 64 + mk /\
   GetRegionMaxKeys (Some s) <> defaultRegionMaxKey) /\
  (sk < 0 ->
   GetRegionSplitKeys (Some s) = 2 ^ 64 + sk /\
   GetRegionSplitKeys (Some s) <> defaultRegionSplitKey).
Proof.
  intros [Hmk Hsk] mk sk. fold mk in Hmk. fold sk in Hsk.
  unfold GetRegionMaxKeys, GetRegionSplitKeys. fold mk sk.
  split; intros Hneg.
  - destruct (Z.eqb_spec mk 0) as [E | _]; [lia |].
    rewrite (uint64_neg mk Hmk Hneg).
    split; [reflexivity |].
    unfold is_int in Hmk. change defaultRegionMaxKey with 1440000. lia.
  - destruct (Z.eqb_spec sk 0) as [E | _]; [lia |].
    rewrite (uint64_neg sk Hsk Hneg).
    split; [reflexivity |].
    unfold is_int in Hsk. change defaultRegionSplitKey with 960000. lia.
Qed.

Lemma keys_accessors_negative_witness :
  GetRegionMaxKeys (Some (mkStoreConfig (mkCoprocessor "" "" (-1) (-1))))
    = 18446744073709551615 /\
  GetRegionSplitKeys (Some (mkStoreConfig (mkCoprocessor "" "" (-1) (-1))))
    = 18446744073709551615.
Proof.
  assert (Hwf : wf_StoreConfig (mkStoreConfig (mkCoprocessor "" "" (-1) (-1))))
    by (split; vm_compute; split; congruence).
  pose proof (keys_accessors_negative _ Hwf) as [Hm Hs].
  split.
  - apply Hm. reflexivity.
  - apply Hs. reflexivity.
Defined.

(** ** Construction *)

(** C7: [NewStoreConfigManager] always returns a manager, which holds no
    snapshot.  Without a security configuration its scheme is [http] and its
    client the zero client; when [ToTLSConfig] gives a non-nil TLS
    configuration and no error the scheme is [https] and the client's
    transport carries that configuration; when [ToTLSConfig] gives an error
    the scheme is [http] and the client the zero client.  The scheme is
    [https] in the second case only. *)
Theorem NewStoreConfigManager_scheme {SecurityConfig : Type}
    (ToTLSConfig : SecurityConfig -> option loc * option error)
    (sec : option SecurityConfig) :
  exists mg,
    NewStoreConfigManager ToTLSConfig sec = Some mg /\
    config mg = None /\
    (sec = None -> schema mg = "http" /\ client mg = zeroClient) /\
    (forall sc cfg, sec = Some sc -> ToTLSConfig sc = (Some cfg, None) ->
       schema mg = "https" /\
       client mg = mkClient (Some (mkTransport (Some cfg)))) /\
    (forall sc cfg err, sec = Some sc -> ToTLSConfig sc = (cfg, Some err) ->
       schema mg = "http" /\ client mg = zeroClient) /\
    (schema mg = "https" <->
       exists sc cfg, sec = Some sc /\ ToTLSConfig sc = (Some cfg, None)) /\
    (schema mg = "http" \/ schema mg = "https").
Proof.
  unfold NewStoreConfigManager.
  destruct sec as [sc |].
  - destruct (ToTLSConfig sc) as [[cfg |] [err |]] eqn:E;
      eexists; (split; [reflexivity |]); simpl;
      repeat split; try congruence; try discriminate; auto.
    all: try (intros sc' cfg' [= <-]; rewrite E; intros [= <-]; auto; fail).
    all: try (intros sc' cfg' err' [= <-]; rewrite E; intros [= <- <-]; auto; fail).
    all: try (intros (sc' & cfg' & [= <-] & E'); congruence).
    intros _. eauto.
  - eexists. split; [reflexivity |]. simpl.
    repeat split; try congruence; try discriminate; auto.
    intros (sc' & cfg' & [= ] & _).
Qed.

Lemma NewStoreConfigManager_scheme_witness :
  (schema <$> NewStoreConfigManager Stub.ToTLSConfig None) = Some "http" /\
  (schema <$> NewStoreConfigManager Stub.ToTLSConfig (Some "certs/pd.pem")) = Some "https" /\
  (schema <$> NewStoreConfigManager Stub.ToTLSConfig (Some "bad")) = Some "http".
Proof.
  split; [| split].
  - destruct (NewStoreConfigManager_scheme Stub.ToTLSConfig None)
      as (mg & -> & _ & Hnone & _).
    simpl. f_equal. apply Hnone. reflexivity.
  - destruct (NewStoreConfigManager_scheme Stub.ToTLSConfig (Some "certs/pd.pem"))
      as (mg & -> & _ & _ & Htls & _).
    simpl. f_equal. apply (Htls "certs/pd.pem" 7%positive); reflexivity.
  - destruct (NewStoreConfigManager_scheme Stub.ToTLSConfig (Some "bad"))
      as (mg & -> & _ & _ & _ & Herr & _).
    simpl. f_equal.
    apply (Herr "bad" None (Err "could not load certificate")); reflexivity.
Defined.

(** ** Update and read *)

Lemma GetStoreConfig_config (mg : StoreConfigManager) :
  GetStoreConfig (Some mg) = config mg.
Proof. unfold GetStoreConfig. destruct (config mg); reflexivity. Qed.

Lemma GetStoreConfig_UpdateConfig (p : loc) (mg : StoreConfigManager) :
  GetStoreConfig (UpdateConfig (Some p) (Some mg)) = Some p.
Proof. reflexivity. Qed.

(** C5: [UpdateConfig] with a nil snapshot, or on a nil manager, leaves the
    manager as it is, so [GetStoreConfig] returns after it what it returned
    before; a manager that held a snapshot still holds it. *)
Theorem UpdateConfig_nil_noop (c : option loc) (m : option StoreConfigManager) :
  c = None \/ m = None ->
  UpdateConfig c m = m /\
  GetStoreConfig (UpdateConfig c m) = GetStoreConfig m /\
  (forall p, GetStoreConfig m = Some p -> GetStoreConfig (UpdateConfig c m) = Some p).
Proof.
  intros Hnil.
  assert (E : UpdateConfig c m = m).
  { destruct Hnil as [-> | ->]; [reflexivity |]. destruct c; reflexivity. }
  rewrite E. auto.
Qed.

Lemma UpdateConfig_nil_noop_witness :
  GetStoreConfig (UpdateConfig None (Some (mkManager (Some 5%positive) zeroClient "http")))
    = Some 5%positive /\
  GetStoreConfig (UpdateConfig None (Some Stub.plain_manager)) = None /\
  GetStoreConfig (UpdateConfig (Some 5%positive) None) = None.
Proof.
  split; [| split].
  - apply (UpdateConfig_nil_noop None); [left |]; reflexivity.
  - rewrite (proj1 (proj2 (UpdateConfig_nil_noop None (Some Stub.plain_manager)
                             (or_introl eq_refl)))).
    reflexivity.
  - rewrite (proj1 (proj2 (UpdateConfig_nil_noop (Some 5%positive) None
                             (or_intror eq_refl)))).
    reflexivity.
Defined.

(** ** Load *)

Section LoadProperties.
Context {World : Type} {deps : LoadDeps World}.

Lemma Load_paths a mg σ :
  exists e m' σ', Load a (Some mg) σ = Ret (e, m', σ') /\ Load_path a mg σ e m' σ'.
Proof.
  unfold Load.
  destruct (http_Client_Get _ _ _) as [[resp | err] w] eqn:EG.
  - destruct (ioutil_ReadAll _ _) as [[body | err] w'] eqn:ER.
    + destruct (json_Unmarshal _ _) as [cfg [err |]] eqn:EU.
      * do 3 eexists. split; [reflexivity |].
        rewrite <- !app_assoc. simpl. eapply Load_decode_fails; eauto.
      * do 3 eexists. split; [reflexivity |].
        rewrite <- !app_assoc. simpl. eapply Load_succeeds; eauto.
    + do 3 eexists. split; [reflexivity |].
      rewrite <- !app_assoc. simpl. eapply Load_read_fails; eauto.
  - do 3 eexists. split; [reflexivity |]. eapply Load_get_fails; eauto.
Qed.

Lemma fresh_unused (h : gmap loc StoreConfig) : h !! fresh (dom h) = None.
Proof. apply not_elem_of_dom. apply is_fresh. Qed.

Lemma insert_fresh_keeps (h : gmap loc StoreConfig) (cfg : StoreConfig) l v :
  h !! l = Some v -> <[fresh (dom h) := cfg]> h !! l = Some v.
Proof.
  intros Hl. rewrite lookup_insert_ne; [assumption |].
  intros <-. rewrite fresh_unused in Hl. discriminate.
Qed.

(** Whatever its path, [Load] keeps the snapshots that were in memory. *)
Lemma Load_path_heap a mg σ e m' σ' :
  Load_path a mg σ e m' σ' ->
  forall l v, heap σ !! l = Some v -> heap σ' !! l = Some v.
Proof.
  intros [] l v Hl; simpl; auto using insert_fresh_keeps.
Qed.

(** A [Load] that returns an error leaves the manager as it was; one that
    returns none makes it hold a pointer that was not in use. *)
Lemma Load_path_manager a mg σ e m' σ' :
  Load_path a mg σ e m' σ' ->
  match e with
  | Some _ => m' = Some mg
  | None => exists p, m' = Some (set_config (Some p) mg) /\
                      heap σ !! p = None /\ is_Some (heap σ' !! p)
  end.
Proof.
  intros []; try reflexivity.
  eexists. split; [reflexivity |]. split; [apply fresh_unused |].
  simpl. rewrite lookup_insert_eq. eauto.
Qed.

(** C1: [Load] on a manager first issues one GET to
    [schema://address/config], and issues no other.  When the GET fails, or
    reading the body fails, or decoding fails, [Load] returns that error and
    the manager is as before, so [GetStoreConfig] returns the same pointer,
    leading to the same snapshot; when decoding succeeds, [Load] returns no
    error and [GetStoreConfig] returns a pointer, not in use before, to the
    decoded snapshot.  In all cases the snapshots in memory keep their
    values. *)
Theorem Load_contract (statusAddress : string) (mg : StoreConfigManager)
    (σ : Machine World) :
  let url := schema mg +:+ "://" +:+ statusAddress +:+ "/config" in
  exists e m' σ',
    Load statusAddress (Some mg) σ = Ret (e, m', σ') /\
    (exists later,
       events σ' = events σ ++ EvGet (client mg) url :: later /\
       Forall (fun ev => forall c u, ev <> EvGet c u) later) /\
    (forall l v, heap σ !! l = Some v -> heap σ' !! l = Some v) /\
    (forall err w,
       http_Client_Get (client mg) url (world σ) = (inr err, w) ->
       e = Some err /\ m' = Some mg /\
       GetStoreConfig m' = GetStoreConfig (Some mg)) /\
    (forall resp w err w',
       http_Client_Get (client mg) url (world σ) = (inl resp, w) ->
       ioutil_ReadAll (Body resp) w = (inr err, w') ->
       e = Some err /\ m' = Some mg /\
       GetStoreConfig m' = GetStoreConfig (Some mg)) /\
    (forall resp w body w' cfg err,
       http_Client_Get (client mg) url (world σ) = (inl resp, w) ->
       ioutil_ReadAll (Body resp) w = (inl body, w') ->
       json_Unmarshal body zeroStoreConfig = (cfg, Some err) ->
       e = Some err /\ m' = Some mg /\
       GetStoreConfig m' = GetStoreConfig (Some mg)) /\
    (forall resp w body w' cfg,
       http_Client_Get (client mg) url (world σ) = (inl resp, w) ->
       ioutil_ReadAll (Body resp) w = (inl body, w') ->
       json_Unmarshal body zeroStoreConfig = (cfg, None) ->
       e = None /\
       exists p, m' = UpdateConfig (Some p) (Some mg) /\
                 GetStoreConfig m' = Some p /\
                 heap σ !! p = None /\
                 deref σ' (GetStoreConfig m') = Some cfg).
Proof.
  intros url. fold (config_url (schema mg) statusAddress) in url.
  destruct (Load_paths statusAddress mg σ) as (e & m' & σ' & HL & Hp).
  exists e, m', σ'. split; [exact HL |].
  split.
  { destruct Hp; simpl; eexists; (split; [reflexivity |]);
      repeat constructor; discriminate. }
  split; [exact (Load_path_heap _ _ _ _ _ _ Hp) |].
  subst url.
  repeat split; intros; destruct Hp; try congruence.
  all: try (repeat match goal with
            | H1 : ?x = _, H2 : ?x = _ |- _ => rewrite H1 in H2; simplify_eq
            end; fail).
  repeat match goal with
         | H1 : ?x = _, H2 : ?x = _ |- _ => rewrite H1 in H2; simplify_eq
         end.
  eexists. split; [reflexivity |]. split; [reflexivity |].
  split; [apply fresh_unused |].
  simpl. apply lookup_insert_eq.
Qed.

(** ** Sequences of calls *)

Lemma exec_total o mg σ :
  exists r mg' σ', exec o (Some mg, σ) = Ret (r, (Some mg', σ')) /\
    (forall l v, heap σ !! l = Some v -> heap σ' !! l = Some v).
Proof.
  destruct o as [c | | a]; simpl.
  - destruct c; simpl; eauto 10.
  - eauto 10.
  - destruct (Load_paths a mg σ) as (e & m' & σ' & -> & Hp).
    pose proof (Load_path_heap _ _ _ _ _ _ Hp) as Hh.
    pose proof (Load_path_manager _ _ _ _ _ _ Hp) as Hm.
    destruct e; [subst m' | destruct Hm as (p & -> & _)]; eauto 10.
Qed.

(** On a non-nil manager every sequence of calls runs to its end. *)
Lemma run_total ops : forall mg σ,
  exists rs mg' σ', run ops (Some mg, σ) = Ret (rs, (Some mg', σ')) /\
    length rs = length ops /\
    (forall l v, heap σ !! l = Some v -> heap σ' !! l = Some v).
Proof.
  induction ops as [| o ops IH]; intros mg σ; simpl.
  - eauto 10.
  - destruct (exec_total o mg σ) as (r & mg1 & σ1 & -> & Hh1).
    destruct (IH mg1 σ1) as (rs & mg2 & σ2 & -> & Hlen & Hh2).
    exists (r :: rs), mg2, σ2. simpl. auto.
Qed.

(** One call changes what [GetStoreConfig] returns only if it replaces the
    snapshot. *)
Lemma exec_changes o s r s' :
  exec o s = Ret (r, s') ->
  GetStoreConfig (fst s') <> GetStoreConfig (fst s) -> replaces o r.
Proof.
  destruct s as [m σ]. destruct o as [c | | a]; simpl.
  - intros [= <- <-]. simpl. destruct c, m; simpl; intros Hne; try exact I; congruence.
  - intros [= <- <-]. simpl. congruence.
  - destruct m as [mg |]; [| discriminate].
    destruct (Load_paths a mg σ) as (e & m' & σ' & -> & Hp).
    intros [= <- <-]. simpl.
    pose proof (Load_path_manager _ _ _ _ _ _ Hp) as Hm.
    destruct e; [subst m'; intros Hne; exfalso; apply Hne; reflexivity | trivial].
Qed.

(** One call that does not replace the snapshot leaves the manager as it
    is. *)
Lemma exec_quiet o s r s' :
  exec o s = Ret (r, s') -> ~ replaces o r -> fst s' = fst s.
Proof.
  destruct s as [m σ]. destruct o as [c | | a]; simpl.
  - intros [= <- <-]. simpl. destruct c; [tauto | reflexivity].
  - intros [= <- <-]. reflexivity.
  - destruct m as [mg |]; [| discriminate].
    destruct (Load_paths a mg σ) as (e & m' & σ' & -> & Hp).
    intros [= <- <-]. simpl.
    pose proof (Load_path_manager _ _ _ _ _ _ Hp) as Hm.
    destruct e; [subst m'; reflexivity | tauto].
Qed.

(** A manager that holds a snapshot holds one after any call. *)
Lemma exec_stays_loaded o s r s' :
  exec o s = Ret (r, s') ->
  GetStoreConfig (fst s) <> None -> GetStoreConfig (fst s') <> None.
Proof.
  destruct s as [m σ]. destruct o as [c | | a]; simpl.
  - intros [= <- <-]. simpl. destruct c, m; simpl; congruence.
  - intros [= <- <-]. trivial.
  - destruct m as [mg |]; [| discriminate].
    destruct (Load_paths a mg σ) as (e & m' & σ' & -> & Hp).
    intros [= <- <-]. simpl.
    pose proof (Load_path_manager _ _ _ _ _ _ Hp) as Hm.
    destruct e; [subst m'; trivial | destruct Hm as (p & -> & _); discriminate].
Qed.

Lemma exec_get_result s r s' :
  exec OpGetStoreConfig s = Ret (r, s') -> r = RetConfig (GetStoreConfig (fst s)).
Proof. simpl. congruence. Qed.

Lemma run_cons_inv o ops s rs s' :
  run (o :: ops) s = Ret (rs, s') ->
  exists r s1 rs', exec o s = Ret (r, s1) /\ run ops s1 = Ret (rs', s') /\ rs = r :: rs'.
Proof.
  simpl. destruct (exec o s) as [[r s1] |]; [| discriminate].
  destruct (run ops s1) as [[rs' s2] |] eqn:E2; [| discriminate].
  intros [= <- <-]. exists r, s1, rs'. auto.
Qed.

Lemma run_quiet ops : forall s rs s',
  run ops s = Ret (rs, s') ->
  Forall2 (fun o r => ~ replaces o r) ops rs ->
  fst s' = fst s /\
  Forall2 (fun o r => o = OpGetStoreConfig -> r = RetConfig (GetStoreConfig (fst s))) ops rs.
Proof.
  induction ops as [| o ops IH]; intros s rs s' Hrun Hq.
  - simpl in Hrun. injection Hrun as <- <-. split; [reflexivity | constructor].
  - apply run_cons_inv in Hrun as (r & s1 & rs' & He & Hr & ->).
    apply Forall2_cons_1 in Hq as [Hq1 Hq].
    pose proof (exec_quiet _ _ _ _ He Hq1) as E1.
    destruct (IH _ _ _ Hr Hq) as [E2 HF].
    split; [congruence |].
    constructor.
    + intros ->. apply (exec_get_result _ _ _ He).
    + rewrite <- E1. exact HF.
Qed.

Lemma run_stays_loaded ops : forall s rs s',
  run ops s = Ret (rs, s') ->
  GetStoreConfig (fst s) <> None ->
  GetStoreConfig (fst s') <> None /\
  Forall2 (fun o r => o = OpGetStoreConfig -> exists p, r = RetConfig (Some p)) ops rs.
Proof.
  induction ops as [| o ops IH]; intros s rs s' Hrun Hl.
  - simpl in Hrun. injection Hrun as <- <-. split; [assumption | constructor].
  - apply run_cons_inv in Hrun as (r & s1 & rs' & He & Hr & ->).
    pose proof (exec_stays_loaded _ _ _ _ He Hl) as Hl1.
    destruct (IH _ _ _ Hr Hl1) as [Hl' HF].
    split; [assumption |].
    constructor; [| assumption].
    intros ->. rewrite (exec_get_result _ _ _ He).
    destruct (GetStoreConfig (fst s)) as [p |]; [eauto | congruence].
Qed.

Lemma run_until ops : forall s rs s' i,
  run ops s = Ret (rs, s') ->
  (forall j o r, (j < i)%nat -> ops !! j = Some o -> rs !! j = Some r -> ~ replaces o r) ->
  ops !! i = Some OpGetStoreConfig ->
  rs !! i = Some (RetConfig (GetStoreConfig (fst s))).
Proof.
  induction ops as [| o ops IH]; intros s rs s' i Hrun Hq Hi.
  - discriminate.
  - apply run_cons_inv in Hrun as (r & s1 & rs' & He & Hr & ->).
    destruct i as [| i]; simpl in *.
    + injection Hi as ->. f_equal. apply (exec_get_result _ _ _ He).
    + assert (E1 : fst s1 = fst s).
      { apply (exec_quiet _ _ _ _ He). apply (Hq 0%nat); [lia | reflexivity ..]. }
      rewrite <- E1. apply (IH s1 rs' s' i Hr); [| exact Hi].
      intros j o' r' Hj Ho Hr'. apply (Hq (S j)); [lia | assumption ..].
Qed.

(** C3: after [UpdateConfig] with a non-nil pointer [p] on a non-nil
    manager, [GetStoreConfig] returns [p].  Any sequence of calls that
    follows runs to its end, and in it every [GetStoreConfig] that comes
    before the first call that replaces the snapshot (an [UpdateConfig] with
    a non-nil pointer, a [Load] that returns no error) returns [p]; if no
    call of the sequence replaces it, [GetStoreConfig] still returns [p]
    after the sequence.  The snapshot at [p] keeps its value throughout. *)
Theorem Update_then_Current (mg : StoreConfigManager) (p : loc)
    (σ : Machine World) (ops : list op) :
  GetStoreConfig (UpdateConfig (Some p) (Some mg)) = Some p /\
  exists rs s',
    run ops (UpdateConfig (Some p) (Some mg), σ) = Ret (rs, s') /\
    (forall i,
       (forall j o r, (j < i)%nat -> ops !! j = Some o -> rs !! j = Some r ->
                      ~ replaces o r) ->
       ops !! i = Some OpGetStoreConfig ->
       rs !! i = Some (RetConfig (Some p))) /\
    (Forall2 (fun o r => ~ replaces o r) ops rs ->
       GetStoreConfig (fst s') = Some p) /\
    (forall v, heap σ !! p = Some v -> heap (snd s') !! p = Some v).
Proof.
  split; [reflexivity |].
  simpl UpdateConfig.
  destruct (run_total ops (set_config (Some p) mg) σ)
    as (rs & mg' & σ' & Hrun & _ & Hh).
  exists rs, (Some mg', σ'). split; [exact Hrun |].
  split; [| split].
  - intros i Hq Hi. apply (run_until _ _ _ _ _ Hrun Hq Hi).
  - intros Hq. destruct (run_quiet _ _ _ _ Hrun Hq) as [E _].
    cbn [fst] in *. rewrite E. reflexivity.
  - intros v. apply Hh.
Qed.

(** C6: from a manager that holds a snapshot every sequence of calls runs
    to its end, after it the manager holds a snapshot, and every
    [GetStoreConfig] in it returns a non-nil pointer.  In any state, a call
    after which [GetStoreConfig] returns something else is an
    [UpdateConfig] with a non-nil pointer or a [Load] that returned no
    error; any other call, a [Load] that returned an error among them,
    leaves the manager as it is; and on a non-nil manager a call of these
    two kinds leaves it holding a snapshot. *)
Theorem Loaded_is_stable (m : option StoreConfigManager) (σ : Machine World) :
  (forall ops,
     GetStoreConfig m <> None ->
     exists rs s',
       run ops (m, σ) = Ret (rs, s') /\
       GetStoreConfig (fst s') <> None /\
       Forall2 (fun o r => o = OpGetStoreConfig -> exists p, r = RetConfig (Some p))
               ops rs) /\
  (forall o r s',
     exec o (m, σ) = Ret (r, s') ->
     (GetStoreConfig (fst s') <> GetStoreConfig m -> replaces o r) /\
     (~ replaces o r -> fst s' = m) /\
     (forall a e, o = OpLoad a -> r = RetError (Some e) -> fst s' = m) /\
     (replaces o r -> m <> None -> GetStoreConfig (fst s') <> None)).
Proof.
  split.
  - intros ops Hl.
    destruct m as [mg |]; [| exfalso; apply Hl; reflexivity].
    destruct (run_total ops mg σ) as (rs & mg' & σ' & Hrun & _ & _).
    exists rs, (Some mg', σ'). split; [exact Hrun |].
    apply (run_stays_loaded _ _ _ _ Hrun Hl).
  - intros o r s' He.
    split; [apply (exec_changes _ _ _ _ He) |].
    split; [apply (exec_quiet _ _ _ _ He) |].
    split.
    + intros a e -> ->. apply (exec_quiet _ _ _ _ He). simpl. tauto.
    + intros Hrep Hm. destruct m as [mg |]; [| congruence].
      destruct o as [[p |] | | a]; simpl in He, Hrep; try contradiction.
      * injection He as <- <-. discriminate.
      * destruct (Load_paths a mg σ) as (e & m' & σ' & HL & Hp).
        rewrite HL in He. injection He as <- <-. simpl.
        pose proof (Load_path_manager _ _ _ _ _ _ Hp) as Hmg.
        destruct e; [contradiction |].
        destruct Hmg as (p & -> & _). discriminate.
Qed.

End LoadProperties.

(** ** The properties at work on the stand-in network *)

Lemma Load_contract_witness :
  (exists m' σ',
     Load (deps := Stub.load_deps) "nowhere:1" (Some Stub.plain_manager) Stub.empty_machine
       = Ret (Some (Err "connection refused"), m', σ') /\
     GetStoreConfig m' = None) /\
  (exists m' σ',
     Load (deps := Stub.load_deps) "tikv-2:20180" (Some Stub.plain_manager) Stub.empty_machine
       = Ret (Some (Err "unexpected EOF"), m', σ') /\
     GetStoreConfig m' = None) /\
  (exists m' σ',
     Load (deps := Stub.load_deps) "tikv-1:20180" (Some Stub.plain_manager) Stub.empty_machine
       = Ret (Some (Err "invalid character"), m', σ') /\
     GetStoreConfig m' = None) /\
  (exists m' σ',
     Load (deps := Stub.load_deps) "tikv-0:20180" (Some Stub.plain_manager) Stub.empty_machine
       = Ret (None, m', σ') /\
     deref σ' (GetStoreConfig m') = Some Stub.good_config).
Proof.
  split; [| split; [| split]].
  - destruct (Load_contract (deps := Stub.load_deps) "nowhere:1" Stub.plain_manager Stub.empty_machine)
      as (e & m' & σ' & HL & _ & _ & Hget & _).
    destruct (Hget (Err "connection refused") 1%nat eq_refl) as (-> & -> & _).
    exists (Some Stub.plain_manager), σ'. split; [exact HL | reflexivity].
  - destruct (Load_contract (deps := Stub.load_deps) "tikv-2:20180" Stub.plain_manager Stub.empty_machine)
      as (e & m' & σ' & HL & _ & _ & _ & Hread & _).
    destruct (Hread (mkResponse 3) 1%nat (Err "unexpected EOF") 1%nat
                eq_refl eq_refl) as (-> & -> & _).
    exists (Some Stub.plain_manager), σ'. split; [exact HL | reflexivity].
  - destruct (Load_contract (deps := Stub.load_deps) "tikv-1:20180" Stub.plain_manager Stub.empty_machine)
      as (e & m' & σ' & HL & _ & _ & _ & _ & Hdec & _).
    destruct (Hdec (mkResponse 2) 1%nat "<html>" 1%nat zeroStoreConfig
                (Err "invalid character") eq_refl eq_refl eq_refl)
      as (-> & -> & _).
    exists (Some Stub.plain_manager), σ'. split; [exact HL | reflexivity].
  - destruct (Load_contract (deps := Stub.load_deps) "tikv-0:20180" Stub.plain_manager Stub.empty_machine)
      as (e & m' & σ' & HL & _ & _ & _ & _ & _ & Hok).
    destruct (Hok (mkResponse 1) 1%nat Stub.good_body 1%nat Stub.good_config
                eq_refl eq_refl eq_refl)
      as (-> & p & _ & _ & _ & Hd).
    exists m', σ'. split; [exact HL | exact Hd].
Defined.

Lemma Update_then_Current_witness :
  exists rs s',
    run (deps := Stub.load_deps) Stub.idle_calls
        (UpdateConfig (Some 5%positive) (Some Stub.plain_manager), Stub.one_snapshot)
      = Ret (rs, s') /\
    rs !! 5%nat = Some (RetConfig (Some 5%positive)) /\
    GetStoreConfig (fst s') = Some 5%positive /\
    heap (snd s') !! 5%positive = Some Stub.good_config.
Proof.
  destruct (Update_then_Current (deps := Stub.load_deps) Stub.plain_manager 5%positive Stub.one_snapshot
              Stub.idle_calls) as (_ & rs & s' & Hrun & Huntil & Hend & Hheap).
  exists rs, s'. split; [exact Hrun |].
  assert (Hrs : rs = [RetConfig (Some 5%positive);
                      RetError (Some (Err "connection refused"));
                      RetUnit;
                      RetError (Some (Err "invalid character"));
                      RetError (Some (Err "unexpected EOF"));
                      RetConfig (Some 5%positive)]).
  { vm_compute in Hrun. injection Hrun as <- _. reflexivity. }
  assert (Hq : Forall2 (fun o r => ~ replaces o r) Stub.idle_calls rs).
  { subst rs. repeat constructor; simpl; tauto. }
  split; [| split].
  - apply Huntil; [| reflexivity].
    intros j o r _ Ho Hr.
    exact (Forall2_lookup_lr _ _ _ _ _ _ Hq Ho Hr).
  - apply Hend, Hq.
  - apply Hheap. reflexivity.
Defined.

Lemma Loaded_is_stable_witness :
  exists rs s',
    run (deps := Stub.load_deps) Stub.busy_calls
        (Some (mkManager (Some 5%positive) zeroClient "http"), Stub.one_snapshot)
      = Ret (rs, s') /\
    GetStoreConfig (fst s') <> None.
Proof.
  destruct (Loaded_is_stable (deps := Stub.load_deps) (Some (mkManager (Some 5%positive) zeroClient "http"))
              Stub.one_snapshot) as [Hrun _].
  destruct (Hrun Stub.busy_calls) as (rs & s' & E & Hl & _).
  - discriminate.
  - exists rs, s'. split; assumption.
Defined.

(** ** Goroutines sharing one manager *)

Import Interleaving.

(** Run alone, a call does what the sequential function does. *)
Lemma solo_UpdateConfig c mg :
  slot (run_schedule [0; 0]%nat (solo (CallUpdateConfig c) (config mg)))
  = GetStoreConfig (UpdateConfig c (Some mg)).
Proof. destruct c; simpl; [reflexivity |]. symmetry. apply GetStoreConfig_config. Qed.

Lemma solo_GetStoreConfig mg :
  trace (run_schedule [0; 0]%nat (solo CallGetStoreConfig (config mg)))
  = [Returned 0 (GetStoreConfig (Some mg))].
Proof. unfold solo. simpl. destruct (config mg); reflexivity. Qed.

Lemma goroutine_step_facts tid g sl g' sl' evs :
  goroutine_step tid g sl = Some (g', sl', evs) ->
  (forall k, k ∈ program g' -> k ∈ program g) /\
  (forall c, pos g' = BeforeStore c -> CallUpdateConfig (Some c) ∈ program g) /\
  ((evs = [] /\ sl' = sl) \/
   (exists c, evs = [Stored tid c] /\ sl' = Some c /\ pos g = BeforeStore c) \/
   (evs = [Returned tid sl] /\ sl' = sl)).
Proof.
  unfold goroutine_step.
  destruct (program g) as [| [[c |] |] rest] eqn:Ep;
    destruct (pos g) as [| c' |] eqn:Eq; try discriminate;
    try (destruct sl as [l |]); intros [= <- <- <-]; simpl;
    (split; [intros k Hk; try rewrite Ep in Hk;
             solve [assumption | apply elem_of_cons; right; assumption] |]);
    (split; [intros c0 Hc0; try discriminate;
             try (rewrite Eq in Hc0); try (injection Hc0 as <-);
             try (apply elem_of_cons; left; reflexivity) |]);
    eauto 10.
Qed.

Lemma snoc_split {A} (l before after : list A) (x y : A) :
  l ++ [x] = before ++ y :: after ->
  (after = [] /\ before = l /\ x = y) \/
  (exists after', after = after' ++ [x] /\ l = before ++ y :: after').
Proof.
  destruct after as [| z after' _] using rev_ind; intros E.
  - left. apply app_inj_tail in E as [-> ->]. auto.
  - right. exists after'.
    change (l ++ [x] = before ++ (y :: after') ++ [z]) in E.
    rewrite app_assoc in E. apply app_inj_tail in E as [-> ->]. auto.
Qed.

Lemma initial_inv h programs : reachable_inv h programs (initial h programs).
Proof.
  unfold reachable_inv, initial; simpl.
  split; [reflexivity |]. split; [| split; [| split]].
  - intros tid g Hg. rewrite list_lookup_fmap in Hg.
    destruct (programs !! tid) as [p0 |]; [| discriminate].
    injection Hg as <-. exists p0. simpl. split; [reflexivity |].
    split; [auto | discriminate].
  - discriminate.
  - intros w c Hin. apply elem_of_nil in Hin. contradiction.
  - intros [| ? ?] ? ? ? ?; discriminate.
Qed.

Lemma step_at_inv h programs tid s :
  reachable_inv h programs s -> reachable_inv h programs (step_at tid s).
Proof.
  intros Hinv. unfold step_at.
  destruct (pool s !! tid) as [g |] eqn:Eg; [| exact Hinv].
  destruct (goroutine_step tid g (slot s)) as [[[g' sl'] evs] |] eqn:Es;
    [| exact Hinv].
  destruct Hinv as (Hmem & Hpool & Hslot & Hstored & Hret).
  destruct (goroutine_step_facts _ _ _ _ _ _ Es) as (Hprog & Hpos & Hev).
  destruct (Hpool tid g Eg) as (p0 & Hp0 & Hsub & Hbs).
  unfold reachable_inv; simpl.
  split; [exact Hmem |]. split; [| split; [| split]].
  - intros tid' g0 Hg0.
    apply list_lookup_insert_Some in Hg0 as [(<- & <- & _) | (_ & Hg0)];
      [| apply (Hpool _ _ Hg0)].
    exists p0. split; [exact Hp0 |]. split; [auto |].
    intros c Hc. apply Hsub. apply (Hpos c Hc).
  - intros c Hc.
    destruct Hev as [(-> & ->) | [(c' & -> & -> & _) | (-> & ->)]].
    + rewrite app_nil_r. auto.
    + injection Hc as ->. exists tid. apply elem_of_app. right.
      apply list_elem_of_singleton. reflexivity.
    + destruct (Hslot c Hc) as (w & Hw). exists w.
      apply elem_of_app. left. exact Hw.
  - intros w c Hin. apply elem_of_app in Hin as [Hin | Hin]; [eauto |].
    destruct Hev as [(-> & _) | [(c' & -> & _ & Hc') | (-> & _)]].
    + apply elem_of_nil in Hin. contradiction.
    + apply list_elem_of_singleton in Hin. injection Hin as -> ->.
      exists p0. split; [exact Hp0 | apply (Hbs _ Hc')].
    + apply list_elem_of_singleton in Hin. discriminate.
  - intros before tid' c after E.
    destruct Hev as [(-> & _) | [(c' & -> & _ & _) | (-> & _)]].
    + rewrite app_nil_r in E. eauto.
    + apply snoc_split in E as [(_ & _ & ?) | (after' & _ & E)];
        [discriminate | eauto].
    + apply snoc_split in E as [(_ & -> & Hr) | (after' & _ & E)]; [| eauto].
      injection Hr as _ Hr. apply Hslot. exact Hr.
Qed.

Lemma run_schedule_inv h programs schedule : forall s,
  reachable_inv h programs s -> reachable_inv h programs (run_schedule schedule s).
Proof.
  unfold run_schedule.
  induction schedule as [| tid schedule IH]; intros s Hinv; simpl.
  - exact Hinv.
  - apply IH. apply step_at_inv. exact Hinv.
Qed.

(** C4: goroutines run any programs of [UpdateConfig] and [GetStoreConfig]
    calls on one manager, from a manager that holds nothing, under any
    schedule.  Then every [GetStoreConfig] returned nil or a pointer that a
    goroutine had stored before, and that goroutine had been passed this
    pointer by an [UpdateConfig] of its program; and the memory of snapshots
    is as at the start, so the pointer leads to the snapshot it led to when
    it was passed. *)
Theorem readers_see_whole_updates (h : gmap loc StoreConfig)
    (programs : list (list call)) (schedule : list nat) :
  let s := run_schedule schedule (initial h programs) in
  mem s = h /\
  forall before tid r after,
    trace s = before ++ Returned tid r :: after ->
    r = None \/
    exists c writer p0,
      r = Some c /\
      Stored writer c ∈ before /\
      programs !! writer = Some p0 /\
      CallUpdateConfig (Some c) ∈ p0 /\
      mem s !! c = h !! c.
Proof.
  intros s.
  pose proof (run_schedule_inv h programs schedule _ (initial_inv h programs))
    as (Hmem & _ & _ & Hstored & Hret).
  fold s in Hmem, Hstored, Hret.
  split; [exact Hmem |].
  intros before tid [c |] after E; [right | left; reflexivity].
  destruct (Hret _ _ _ _ E) as (w & Hw).
  destruct (Hstored w c) as (p0 & Hp0 & Hc).
  { rewrite E. apply elem_of_app. left. exact Hw. }
  exists c, w, p0. rewrite Hmem. auto 10.
Qed.

Example a_schedule_trace :
  trace (run_schedule Stub.a_schedule
           (initial Stub.two_snapshots Stub.writer_and_reader))
  = [Returned 1 None; Stored 0 5%positive; Stored 0 6%positive;
     Returned 1 (Some 6%positive)].
Proof. reflexivity. Qed.

Lemma readers_see_whole_updates_witness :
  exists writer p0,
    Stored writer 6%positive
      ∈ [Returned 1 None; Stored 0 5%positive; Stored 0 6%positive] /\
    Stub.writer_and_reader !! writer = Some p0 /\
    CallUpdateConfig (Some 6%positive) ∈ p0.
Proof.
  destruct (readers_see_whole_updates Stub.two_snapshots Stub.writer_and_reader
              Stub.a_schedule) as [_ Hsee].
  destruct (Hsee [Returned 1 None; Stored 0 5%positive; Stored 0 6%positive]
              1%nat (Some 6%positive) [] eq_refl)
    as [Hnil | (c & writer & p0 & Hc & Hin & Hp0 & Hcall & _)].
  - discriminate Hnil.
  - injection Hc as <-. exists writer, p0. auto.
Defined.

(** A store that answers with two fields set: after [Load] the accessors
    give the two values and the defaults of the two others. *)
Example load_then_read :
  match Load (deps := Stub.load_deps) "tikv-0:20180" (Some Stub.plain_manager)
             Stub.empty_machine with
  | Ret (e, m', σ') =>
      e = None /\
      events σ' = [EvGet zeroClient "http://tikv-0:20180/config";
                   EvReadAll 1%positive;
                   EvLogInfo "update store config successful"
                     "http://tikv-0:20180/config" 1%positive;
                   EvClose 1%positive] /\
      GetRegionMaxSize (deps := Stub.snapshot_deps) (deref σ' (GetStoreConfig m')) = 200 /\
      GetRegionMaxKeys (deref σ' (GetStoreConfig m')) = 5000 /\
      GetRegionSplitSize (deps := Stub.snapshot_deps) (deref σ' (GetStoreConfig m')) = 96 /\
      GetRegionSplitKeys (deref σ' (GetStoreConfig m')) = 960000
  | Panic _ => False
  end.
Proof. vm_compute. repeat split. Qed.

(** [Load] through a nil manager panics at [m.schema]. *)
Example load_nil_manager :
  Load (deps := Stub.load_deps) "tikv-0:20180" None Stub.empty_machine
  = Panic "invalid memory address or nil pointer dereference".
Proof. reflexivity. Qed.

(** * Further properties *)

(** ** Accessors *)

Lemma uint64_nonzero z : is_int z -> z <> 0 -> uint64 z <> 0.
Proof.
  intros Hz Hne.
  destruct (Z_lt_le_dec z 0) as [Hneg | Hpos].
  - rewrite (uint64_neg z Hz Hneg). unfold is_int in Hz. lia.
  - rewrite (uint64_nonneg z Hz Hpos). exact Hne.
Qed.

Lemma uint64_inj x y : is_int x -> is_int y -> uint64 x = uint64 y -> x = y.
Proof.
  intros Hx Hy.
  destruct (Z_lt_le_dec x 0) as [Hxn | Hxp]; destruct (Z_lt_le_dec y 0) as [Hyn | Hyp];
    rewrite ?(uint64_neg x Hx Hxn), ?(uint64_nonneg x Hx Hxp),
            ?(uint64_neg y Hy Hyn), ?(uint64_nonneg y Hy Hyp);
    unfold is_int in *; lia.
Qed.

(** X1: the two key-count accessors never return zero: on the nil snapshot
    and on every snapshot whose counters are in the range of [int], the
    result is positive and below 2^64. *)
Theorem keys_accessors_positive (c : option StoreConfig) :
  (forall s, c = Some s -> wf_StoreConfig s) ->
  0 < GetRegionMaxKeys c < 2 ^ 64 /\ 0 < GetRegionSplitKeys c < 2 ^ 64.
Proof.
  intros Hwf. destruct c as [s |]; [| split; vm_compute; split; reflexivity].
  destruct (Hwf s eq_refl) as [Hmk Hsk].
  unfold GetRegionMaxKeys, GetRegionSplitKeys. split.
  - destruct (Z.eqb_spec (RegionMaxKeys (StoreConfig_Coprocessor s)) 0) as [_ | Hne].
    + vm_compute. split; reflexivity.
    + pose proof (uint64_range (RegionMaxKeys (StoreConfig_Coprocessor s))) as Hr.
      pose proof (uint64_nonzero _ Hmk Hne). unfold is_uint64 in Hr. lia.
  - destruct (Z.eqb_spec (RegionSplitKeys (StoreConfig_Coprocessor s)) 0) as [_ | Hne].
    + vm_compute. split; reflexivity.
    + pose proof (uint64_range (RegionSplitKeys (StoreConfig_Coprocessor s))) as Hr.
      pose proof (uint64_nonzero _ Hsk Hne). unfold is_uint64 in Hr. lia.
Qed.

Lemma keys_accessors_positive_witness :
  0 < GetRegionMaxKeys (Some (mkStoreConfig (mkCoprocessor "" "" (-7) 0))) < 2 ^ 64 /\
  0 < GetRegionSplitKeys (Some (mkStoreConfig (mkCoprocessor "" "" (-7) 0))) < 2 ^ 64.
Proof.
  apply (keys_accessors_positive (Some (mkStoreConfig (mkCoprocessor "" "" (-7) 0)))).
  intros s [= <-]. split; vm_compute; split; congruence.
Defined.

(** X2: on snapshots whose counters are in the range of [int],
    [GetRegionMaxKeys] returns 1440000 exactly when the field is 0 or
    1440000, [GetRegionSplitKeys] returns 960000 exactly when the field is 0
    or 960000, and two snapshots with nonzero fields get the same result
    only if the fields are equal. *)
Theorem keys_accessors_faithful (s1 s2 : StoreConfig) :
  wf_StoreConfig s1 -> wf_StoreConfig s2 ->
  let mk1 := RegionMaxKeys (StoreConfig_Coprocessor s1) in
  let sk1 := RegionSplitKeys (StoreConfig_Coprocessor s1) in
  let mk2 := RegionMaxKeys (StoreConfig_Coprocessor s2) in
  let sk2 := RegionSplitKeys (StoreConfig_Coprocessor s2) in
  (GetRegionMaxKeys (Some s1) = 1440000 <-> mk1 = 0 \/ mk1 = 1440000) /\
  (GetRegionSplitKeys (Some s1) = 960000 <-> sk1 = 0 \/ sk1 = 960000) /\
  (mk1 <> 0 -> mk2 <> 0 ->
   GetRegionMaxKeys (Some s1) = GetRegionMaxKeys (Some s2) -> mk1 = mk2) /\
  (sk1 <> 0 -> sk2 <> 0 ->
   GetRegionSplitKeys (Some s1) = GetRegionSplitKeys (Some s2) -> sk1 = sk2).
Proof.
  intros [Hmk1 Hsk1] [Hmk2 Hsk2] mk1 sk1 mk2 sk2.
  fold mk1 in Hmk1. fold sk1 in Hsk1. fold mk2 in Hmk2. fold sk2 in Hsk2.
  assert (Hd1 : is_int 1440000) by (vm_compute; split; congruence).
  assert (Hd2 : is_int 960000) by (vm_compute; split; congruence).
  unfold GetRegionMaxKeys, GetRegionSplitKeys.
  fold mk1 sk1 mk2 sk2.
  split; [| split; [| split]].
  - destruct (Z.eqb_spec mk1 0) as [E | Hne].
    + split; [auto | reflexivity].
    + split.
      * intros E. right. apply (uint64_inj _ _ Hmk1 Hd1). exact E.
      * intros [E | ->]; [contradiction | reflexivity].
  - destruct (Z.eqb_spec sk1 0) as [E | Hne].
    + split; [auto | reflexivity].
    + split.
      * intros E. right. apply (uint64_inj _ _ Hsk1 Hd2). exact E.
      * intros [E | ->]; [contradiction | reflexivity].
  - intros H1 H2. apply Z.eqb_neq in H1 as ->. apply Z.eqb_neq in H2 as ->.
    apply uint64_inj; assumption.
  - intros H1 H2. apply Z.eqb_neq in H1 as ->. apply Z.eqb_neq in H2 as ->.
    apply uint64_inj; assumption.
Qed.

Lemma keys_accessors_faithful_witness :
  GetRegionMaxKeys (Some (mkStoreConfig (mkCoprocessor "" "" (-1) 960000)))
    <> GetRegionMaxKeys (Some Stub.good_config) /\
  GetRegionSplitKeys (Some (mkStoreConfig (mkCoprocessor "" "" (-1) 960000))) = 960000.
Proof.
  assert (Hw1 : wf_StoreConfig (mkStoreConfig (mkCoprocessor "" "" (-1) 960000)))
    by (split; vm_compute; split; congruence).
  assert (Hw2 : wf_StoreConfig Stub.good_config)
    by (split; vm_compute; split; congruence).
  pose proof (keys_accessors_faithful _ _ Hw1 Hw2) as (_ & Hs & Hinj & _).
  split.
  - intros E. apply Hinj in E; discriminate.
  - apply Hs. right. reflexivity.
Defined.

(** ** Reading through a manager that holds nothing *)

(** X3: the chain [m.GetStoreConfig().GetRegion...()] is safe on a nil
    manager and on a manager that [NewStoreConfigManager] has just made,
    whatever the security configuration: [GetStoreConfig] returns nil and
    the four accessors return 144, 96, 1440000 and 960000. *)
Theorem unloaded_manager_defaults {deps : SnapshotDeps} {SecurityConfig World : Type}
    (ToTLSConfig : SecurityConfig -> option loc * option error)
    (sec : option SecurityConfig) (σ : Machine World) :
  let fresh_m := NewStoreConfigManager ToTLSConfig sec in
  (GetStoreConfig fresh_m = None /\
   GetRegionMaxSize (deref σ (GetStoreConfig fresh_m)) = 144 /\
   GetRegionSplitSize (deref σ (GetStoreConfig fresh_m)) = 96 /\
   GetRegionMaxKeys (deref σ (GetStoreConfig fresh_m)) = 1440000 /\
   GetRegionSplitKeys (deref σ (GetStoreConfig fresh_m)) = 960000) /\
  (GetStoreConfig None = None /\
   GetRegionMaxSize (deref σ (GetStoreConfig None)) = 144 /\
   GetRegionSplitSize (deref σ (GetStoreConfig None)) = 96 /\
   GetRegionMaxKeys (deref σ (GetStoreConfig None)) = 1440000 /\
   GetRegionSplitKeys (deref σ (GetStoreConfig None)) = 960000).
Proof.
  intros fresh_m.
  assert (E : GetStoreConfig fresh_m = None).
  { unfold fresh_m, NewStoreConfigManager.
    destruct sec as [sc |]; [| reflexivity].
    destruct (ToTLSConfig sc) as [[cfg |] [err |]]; reflexivity. }
  rewrite E. simpl. repeat split; reflexivity.
Qed.

(** ** Updates in a row *)

Lemma updates_app cs1 cs2 m : updates (cs1 ++ cs2) m = updates cs2 (updates cs1 m).
Proof. unfold updates. apply fold_left_app. Qed.

Lemma updates_all_nil cs m : Forall (fun c => c = None) cs -> updates cs m = m.
Proof.
  intros Hall. revert m.
  induction Hall as [| c cs -> _ IH]; intros m; [reflexivity |].
  change (updates (None :: cs) m) with (updates cs (UpdateConfig None m)).
  rewrite IH. destruct m; reflexivity.
Qed.

Lemma updates_keep_transport cs : forall mg,
  exists mg', updates cs (Some mg) = Some mg' /\
              client mg' = client mg /\ schema mg' = schema mg.
Proof.
  induction cs as [| c cs IH]; intros mg.
  - exists mg. auto.
  - change (updates (c :: cs) (Some mg))
      with (updates cs (UpdateConfig c (Some mg))).
    destruct c as [p |]; simpl UpdateConfig.
    + destruct (IH (set_config (Some p) mg)) as (mg' & -> & Hc & Hs).
      exists mg'. auto.
    + apply IH.
Qed.

(** X4: of [UpdateConfig] calls in a row the last one with a non-nil
    pointer decides: after them the manager is the manager before them with
    that pointer stored, whatever was stored in between; calls with nil
    only leave it as it was; and a nil manager stays nil. *)
Theorem updates_last_wins (cs : list (option loc)) (mg : StoreConfigManager) :
  (Forall (fun c => c = None) cs -> updates cs (Some mg) = Some mg) /\
  (forall cs1 p cs2,
     cs = cs1 ++ Some p :: cs2 -> Forall (fun c => c = None) cs2 ->
     updates cs (Some mg) = Some (set_config (Some p) mg) /\
     GetStoreConfig (updates cs (Some mg)) = Some p) /\
  updates cs None = None.
Proof.
  split; [apply updates_all_nil |]. split.
  - intros cs1 p cs2 -> Hnil.
    rewrite updates_app.
    destruct (updates_keep_transport cs1 mg) as (mg1 & -> & Hc & Hs).
    change (updates (Some p :: cs2) (Some mg1))
      with (updates cs2 (Some (set_config (Some p) mg1))).
    rewrite (updates_all_nil cs2 _ Hnil).
    unfold set_config. rewrite Hc, Hs. split; reflexivity.
  - induction cs as [| c cs IH]; [reflexivity |].
    change (updates (c :: cs) None) with (updates cs (UpdateConfig c None)).
    destruct c; exact IH.
Qed.

Lemma updates_last_wins_witness :
  GetStoreConfig (updates Stub2.some_updates (Some Stub.plain_manager))
  = Some 6%positive.
Proof.
  apply (updates_last_wins Stub2.some_updates Stub.plain_manager)
    with (cs1 := [Some 5%positive; None]) (cs2 := [None; None]).
  - reflexivity.
  - repeat constructor.
Defined.

(** ** What [Load] shows to the outside *)

Lemma requests_app evs1 evs2 : requests (evs1 ++ evs2) = requests evs1 ++ requests evs2.
Proof.
  induction evs1 as [| [] evs1 IH]; simpl; rewrite ?IH; reflexivity.
Qed.

Lemma logged_app evs1 evs2 : logged (evs1 ++ evs2) = logged evs1 ++ logged evs2.
Proof.
  induction evs1 as [| [] evs1 IH]; simpl; rewrite ?IH; reflexivity.
Qed.

Section LoadOutside.
Context {World : Type} {deps : LoadDeps World}.

Lemma Load_path_requests a mg σ e m' σ' :
  Load_path a mg σ e m' σ' ->
  requests (events σ') = requests (events σ) ++ [(client mg, config_url (schema mg) a)].
Proof. intros []; simpl; rewrite requests_app; reflexivity. Qed.

Lemma Load_path_transport a mg σ e m' σ' :
  Load_path a mg σ e m' σ' ->
  exists mg', m' = Some mg' /\ client mg' = client mg /\ schema mg' = schema mg.
Proof. intros []; eexists; (split; [reflexivity |]); split; reflexivity. Qed.

Lemma exec_requests o mg σ :
  exists r mg' σ',
    exec o (Some mg, σ) = Ret (r, (Some mg', σ')) /\
    client mg' = client mg /\ schema mg' = schema mg /\
    requests (events σ') =
      requests (events σ) ++
      map (fun a => (client mg, config_url (schema mg) a)) (load_addresses [o]).
Proof.
  destruct o as [c | | a]; simpl.
  - destruct c; simpl; do 3 eexists; (split; [reflexivity |]);
      rewrite app_nil_r; auto.
  - do 3 eexists. split; [reflexivity |]. rewrite app_nil_r. auto.
  - destruct (Load_paths a mg σ) as (e & m' & σ' & -> & Hp).
    destruct (Load_path_transport _ _ _ _ _ _ Hp) as (mg' & -> & Hc & Hs).
    do 3 eexists. split; [reflexivity |].
    split; [exact Hc |]. split; [exact Hs |].
    apply (Load_path_requests _ _ _ _ _ _ Hp).
Qed.

Lemma load_addresses_cons o ops :
  load_addresses (o :: ops) = load_addresses [o] ++ load_addresses ops.
Proof. destruct o; reflexivity. Qed.

(** X5: every sequence of calls on a non-nil manager runs to its end with
    the client and the scheme the manager had at the start, and the requests
    it sends are those of its [Load] calls, one each and in their order,
    each a GET by that client to [schema://address/config], whether the
    loads succeed or not. *)
Theorem run_requests (ops : list op) (mg : StoreConfigManager) (σ : Machine World) :
  exists rs mg' σ',
    run ops (Some mg, σ) = Ret (rs, (Some mg', σ')) /\
    client mg' = client mg /\ schema mg' = schema mg /\
    requests (events σ') =
      requests (events σ) ++
      map (fun a => (client mg, schema mg +:+ "://" +:+ a +:+ "/config"))
          (load_addresses ops).
Proof.
  revert mg σ. induction ops as [| o ops IH]; intros mg σ.
  - exists [], mg, σ. simpl. rewrite app_nil_r. auto.
  - destruct (exec_requests o mg σ) as (r & mg1 & σ1 & He & Hc1 & Hs1 & Hr1).
    destruct (IH mg1 σ1) as (rs & mg2 & σ2 & Hrun & Hc2 & Hs2 & Hr2).
    exists (r :: rs), mg2, σ2.
    split; [simpl run; rewrite He, Hrun; reflexivity |].
    split; [congruence |]. split; [congruence |].
    rewrite (load_addresses_cons o ops), map_app, app_assoc.
    rewrite Hr2, Hr1, Hc1, Hs1. reflexivity.
Qed.

(** X6: [Load] reads and closes the body of the response it got: when the
    GET gives a response, the events after the GET start with the read of
    its body and end with the close of its body, with no other event on a
    body between them, and the world is left as the close leaves it; when
    the GET gives an error, nothing follows the GET and no body is read or
    closed. *)
Theorem Load_releases_body (a : string) (mg : StoreConfigManager) (σ : Machine World) :
  let url := schema mg +:+ "://" +:+ a +:+ "/config" in
  exists e m' σ',
    Load a (Some mg) σ = Ret (e, m', σ') /\
    (forall err w,
       http_Client_Get (client mg) url (world σ) = (inr err, w) ->
       events σ' = events σ ++ [EvGet (client mg) url] /\ world σ' = w) /\
    (forall resp w,
       http_Client_Get (client mg) url (world σ) = (inl resp, w) ->
       exists mid,
         events σ' = events σ ++ EvGet (client mg) url :: EvReadAll (Body resp)
                                 :: mid ++ [EvClose (Body resp)] /\
         Forall (fun ev => ~ on_body ev) mid /\
         world σ' = Body_Close (Body resp) (snd (ioutil_ReadAll (Body resp) w))).
Proof.
  intros url. fold (config_url (schema mg) a) in url. subst url.
  destruct (Load_paths a mg σ) as (e & m' & σ' & HL & Hp).
  exists e, m', σ'. split; [exact HL |].
  split.
  - intros err0 w0 Hget. destruct Hp; try congruence.
    simpl. split; [reflexivity | congruence].
  - intros resp0 w0 Hget.
    destruct Hp as [err w Hg | resp w err w' Hg Hr | resp w body w' cfg err Hg Hr Hu
                   | resp w body w' cfg Hg Hr Hu];
      rewrite Hg in Hget; try discriminate;
      injection Hget as <- <-; rewrite Hr; simpl.
    + exists []. split; [reflexivity |]. split; [constructor | reflexivity].
    + exists []. split; [reflexivity |]. split; [constructor | reflexivity].
    + eexists [_]. split; [reflexivity |].
      split; [repeat constructor; simpl; tauto | reflexivity].
Qed.

(** X7: [Load] writes its log line exactly when it returns no error: then
    it writes one line, with the URL of the GET and the pointer that
    [GetStoreConfig] returns afterwards; when it returns an error it writes
    none. *)
Theorem Load_logs_success (a : string) (mg : StoreConfigManager) (σ : Machine World) :
  exists e m' σ' new,
    Load a (Some mg) σ = Ret (e, m', σ') /\
    events σ' = events σ ++ new /\
    match e with
    | None => exists p, logged new = [(schema mg +:+ "://" +:+ a +:+ "/config", p)] /\
                        GetStoreConfig m' = Some p
    | Some _ => logged new = []
    end.
Proof.
  destruct (Load_paths a mg σ) as (e & m' & σ' & HL & Hp).
  exists e, m', σ'.
  destruct Hp; simpl; eexists; (split; [exact HL |]);
    (split; [reflexivity |]); try reflexivity.
  eexists. split; reflexivity.
Qed.

(** X8: [Load] does not look at the snapshot the manager holds: run on the
    same manager holding any other pointer, it returns the same error and
    leaves the same memory, world and events, and when it returns no error
    [GetStoreConfig] returns the same pointer afterwards. *)
Theorem Load_ignores_held (a : string) (mg : StoreConfigManager) (held : option loc)
    (σ : Machine World) :
  exists e m1 m2 σ',
    Load a (Some mg) σ = Ret (e, m1, σ') /\
    Load a (Some (set_config held mg)) σ = Ret (e, m2, σ') /\
    (e = None -> GetStoreConfig m1 <> None /\ GetStoreConfig m1 = GetStoreConfig m2) /\
    (e <> None -> m1 = Some mg /\ m2 = Some (set_config held mg)).
Proof.
  unfold Load. simpl.
  destruct (http_Client_Get _ _ _) as [[resp | err] w].
  - destruct (ioutil_ReadAll _ _) as [[body | err] w'].
    + destruct (json_Unmarshal _ _) as [cfg [err |]].
      * do 4 eexists. repeat split; try reflexivity; discriminate.
      * do 4 eexists. repeat split; try reflexivity; try discriminate; congruence.
    + do 4 eexists. repeat split; try reflexivity; discriminate.
  - do 4 eexists. repeat split; try reflexivity; discriminate.
Qed.

End LoadOutside.

(** ** From construction to the first request *)

Lemma NewStoreConfigManager_shape {SecurityConfig : Type}
    (ToTLSConfig : SecurityConfig -> option loc * option error)
    (sec : option SecurityConfig) :
  exists mg,
    NewStoreConfigManager ToTLSConfig sec = Some mg /\
    (sec = None -> schema mg = "http" /\ client mg = zeroClient) /\
    (forall sc cfg err, sec = Some sc -> ToTLSConfig sc = (cfg, Some err) ->
       schema mg = "http" /\ client mg = zeroClient) /\
    (forall sc cfg, sec = Some sc -> ToTLSConfig sc = (Some cfg, None) ->
       schema mg = "https" /\
       client mg = mkClient (Some (mkTransport (Some cfg)))).
Proof.
  unfold NewStoreConfigManager.
  destruct sec as [sc |].
  - destruct (ToTLSConfig sc) as [[cfg |] [err |]] eqn:E;
      eexists; (split; [reflexivity |]); simpl;
      (split; [discriminate |]); split;
      try (intros sc' cfg' err' [= <-]; rewrite E; intros [= <- <-]; auto; fail);
      try (intros sc' cfg' err' [= <-]; rewrite E; discriminate);
      try (intros sc' cfg' [= <-]; rewrite E; intros [= <-]; auto; fail);
      try (intros sc' cfg' [= <-]; rewrite E; discriminate).
  - eexists. split; [reflexivity |]. simpl.
    split; [auto |]. split; intros; discriminate.
Qed.

(** X9: the first [Load] of a manager that [NewStoreConfigManager] made
    sends its GET to [http://address/config] with the zero client when no
    security configuration was given or [ToTLSConfig] gave an error, and to
    [https://address/config] with a client whose transport carries the TLS
    configuration when [ToTLSConfig] gave one and no error. *)
Theorem new_manager_first_request {World : Type} {deps : LoadDeps World}
    {SecurityConfig : Type}
    (ToTLSConfig : SecurityConfig -> option loc * option error)
    (sec : option SecurityConfig) (a : string) (σ : Machine World) :
  exists mg e m' σ',
    NewStoreConfigManager ToTLSConfig sec = Some mg /\
    Load a (Some mg) σ = Ret (e, m', σ') /\
    (sec = None ->
     requests (events σ') =
       requests (events σ) ++ [(zeroClient, "http://" +:+ a +:+ "/config")]) /\
    (forall sc cfg err, sec = Some sc -> ToTLSConfig sc = (cfg, Some err) ->
     requests (events σ') =
       requests (events σ) ++ [(zeroClient, "http://" +:+ a +:+ "/config")]) /\
    (forall sc cfg, sec = Some sc -> ToTLSConfig sc = (Some cfg, None) ->
     requests (events σ') =
       requests (events σ) ++
       [(mkClient (Some (mkTransport (Some cfg))), "https://" +:+ a +:+ "/config")]).
Proof.
  destruct (NewStoreConfigManager_shape ToTLSConfig sec) as (mg & Hnew & Hcases).
  destruct (Load_paths a mg σ) as (e & m' & σ' & HL & Hp).
  pose proof (Load_path_requests _ _ _ _ _ _ Hp) as Hr.
  exists mg, e, m', σ'. split; [exact Hnew |]. split; [exact HL |].
  destruct Hcases as (Hnone & Herr & Htls).
  split; [| split].
  - intros Hsec. destruct (Hnone Hsec) as [Hs Hc].
    rewrite Hr, Hs, Hc. reflexivity.
  - intros sc cfg err Hsec Ht. destruct (Herr sc cfg err Hsec Ht) as [Hs Hc].
    rewrite Hr, Hs, Hc. reflexivity.
  - intros sc cfg Hsec Ht. destruct (Htls sc cfg Hsec Ht) as [Hs Hc].
    rewrite Hr, Hs, Hc. reflexivity.
Qed.

(** ** Pointers lead to snapshots *)

Section Validity.
Context {World : Type} {deps : LoadDeps World}.

Lemma exec_valid o mg σ :
  held_valid (Some mg) σ -> args_valid [o] σ ->
  exists r mg' σ',
    exec o (Some mg, σ) = Ret (r, (Some mg', σ')) /\
    held_valid (Some mg') σ' /\
    (forall l v, heap σ !! l = Some v -> heap σ' !! l = Some v) /\
    (forall p, r = RetConfig (Some p) -> is_Some (heap σ' !! p)).
Proof.
  intros Hheld Hargs.
  destruct o as [c | | a]; simpl.
  - destruct c as [p |]; simpl.
    + do 3 eexists. split; [reflexivity |]. split; [| split; [auto | discriminate]].
      intros q [= <-]. apply Hargs. apply list_elem_of_singleton. reflexivity.
    + do 3 eexists. split; [reflexivity |]. split; [exact Hheld |].
      split; [auto | discriminate].
  - do 3 eexists. split; [reflexivity |]. split; [exact Hheld |].
    split; [auto |]. intros p [= E]. apply Hheld. exact E.
  - destruct (Load_paths a mg σ) as (e & m' & σ' & -> & Hp).
    pose proof (Load_path_heap _ _ _ _ _ _ Hp) as Hh.
    pose proof (Load_path_manager _ _ _ _ _ _ Hp) as Hm.
    destruct e as [err |].
    + subst m'. do 3 eexists. split; [reflexivity |].
      split; [| split; [exact Hh | discriminate]].
      intros p Hp'. destruct (Hheld p Hp') as [v Hv]. exists v. apply Hh, Hv.
    + destruct Hm as (p & -> & _ & Hin). do 3 eexists. split; [reflexivity |].
      split; [| split; [exact Hh | discriminate]].
      intros q [= <-]. exact Hin.
Qed.

Lemma run_valid ops : forall mg σ,
  held_valid (Some mg) σ -> args_valid ops σ ->
  exists rs mg' σ',
    run ops (Some mg, σ) = Ret (rs, (Some mg', σ')) /\
    held_valid (Some mg') σ' /\
    (forall l v, heap σ !! l = Some v -> heap σ' !! l = Some v) /\
    Forall (fun r => forall p, r = RetConfig (Some p) -> is_Some (heap σ' !! p)) rs.
Proof.
  induction ops as [| o ops IH]; intros mg σ Hheld Hargs.
  - exists [], mg, σ. simpl. auto.
  - destruct (exec_valid o mg σ Hheld) as (r & mg1 & σ1 & He & Hheld1 & Hh1 & Hr1).
    { intros p Hp. apply Hargs. apply list_elem_of_singleton in Hp as ->.
      apply elem_of_cons. left. reflexivity. }
    destruct (IH mg1 σ1 Hheld1) as (rs & mg2 & σ2 & Hrun & Hheld2 & Hh2 & Hrs).
    { intros p Hp. destruct (Hargs p) as [v Hv].
      - apply elem_of_cons. right. exact Hp.
      - exists v. apply Hh1, Hv. }
    exists (r :: rs), mg2, σ2.
    split; [simpl run; rewrite He, Hrun; reflexivity |].
    split; [exact Hheld2 |]. split; [auto |].
    constructor; [| exact Hrs].
    intros p Hp. destruct (Hr1 p Hp) as [v Hv]. exists v. apply Hh2, Hv.
Qed.

(** X10: no call leaves or returns a pointer that leads nowhere: when the
    pointer the manager holds and the pointers that the calls pass to
    [UpdateConfig] lead to snapshots in memory, the sequence runs to its
    end, the pointer the manager then holds leads to a snapshot, and so
    does, in the memory at the end, every non-nil pointer that a
    [GetStoreConfig] of the sequence returned. *)
Theorem run_never_dangles (ops : list op) (mg : StoreConfigManager) (σ : Machine World) :
  held_valid (Some mg) σ -> args_valid ops σ ->
  exists rs mg' σ',
    run ops (Some mg, σ) = Ret (rs, (Some mg', σ')) /\
    (forall p, GetStoreConfig (Some mg') = Some p -> is_Some (deref σ' (Some p))) /\
    Forall (fun r => forall p, r = RetConfig (Some p) -> is_Some (deref σ' (Some p))) rs.
Proof.
  intros Hheld Hargs.
  destruct (run_valid ops mg σ Hheld Hargs) as (rs & mg' & σ' & Hrun & Hh & _ & Hrs).
  exists rs, mg', σ'. split; [exact Hrun |]. split; [exact Hh | exact Hrs].
Qed.

End Validity.

Lemma run_never_dangles_witness :
  exists rs mg' σ',
    run (deps := Stub.load_deps) Stub2.valid_calls
        (Some Stub.plain_manager, Stub.one_snapshot)
      = Ret (rs, (Some mg', σ')) /\
    (forall p, GetStoreConfig (Some mg') = Some p -> is_Some (deref σ' (Some p))).
Proof.
  destruct (run_never_dangles (deps := Stub.load_deps) Stub2.valid_calls
              Stub.plain_manager Stub.one_snapshot)
    as (rs & mg' & σ' & Hrun & Hheld & _).
  - intros p Hp. discriminate Hp.
  - intros p Hp. apply elem_of_cons in Hp as [[= ->] | Hp].
    + exists Stub.good_config. reflexivity.
    + repeat (apply elem_of_cons in Hp as [Hp | Hp]; [discriminate Hp |]).
      apply elem_of_nil in Hp. contradiction.
  - exists rs, mg', σ'. split; assumption.
Defined.

Lemma Load_releases_body_witness :
  exists e m' σ',
    Load (deps := Stub.load_deps) "tikv-2:20180" (Some Stub.plain_manager)
         Stub.empty_machine = Ret (e, m', σ') /\
    events σ' = [EvGet zeroClient "http://tikv-2:20180/config";
                 EvReadAll 3%positive; EvClose 3%positive].
Proof.
  destruct (Load_releases_body (deps := Stub.load_deps) "tikv-2:20180"
              Stub.plain_manager Stub.empty_machine)
    as (e & m' & σ' & HL & _ & Hresp).
  exists e, m', σ'. split; [exact HL |].
  destruct (Hresp (mkResponse 3) 1%nat eq_refl) as (mid & Hev & Hmid & _).
  assert (Hmid' : mid = []).
  { vm_compute in HL. injection HL as _ _ <-. simpl in Hev.
    injection Hev as Hev. destruct mid as [| ? [| ? ?]]; [reflexivity | discriminate ..]. }
  subst mid. exact Hev.
Defined.

Lemma Load_ignores_held_witness :
  exists m1 m2 σ',
    Load (deps := Stub.load_deps) "tikv-0:20180" (Some Stub.plain_manager)
         Stub.one_snapshot = Ret (None, m1, σ') /\
    Load (deps := Stub.load_deps) "tikv-0:20180" (Some Stub2.loaded_manager)
         Stub.one_snapshot = Ret (None, m2, σ') /\
    GetStoreConfig m1 = GetStoreConfig m2.
Proof.
  destruct (Load_ignores_held (deps := Stub.load_deps) "tikv-0:20180"
              Stub.plain_manager (Some 5%positive) Stub.one_snapshot)
    as (e & m1 & m2 & σ' & H1 & H2 & Hok & _).
  assert (He : e = None).
  { vm_compute in H1. injection H1 as <- _ _. reflexivity. }
  subst e. exists m1, m2, σ'.
  split; [exact H1 |]. split; [exact H2 |]. apply Hok. reflexivity.
Defined.

Lemma new_manager_first_request_witness :
  exists mg e m' σ',
    NewStoreConfigManager Stub.ToTLSConfig (Some "certs/pd.pem") = Some mg /\
    Load (deps := Stub.load_deps) "tikv-0:20180" (Some mg) Stub.empty_machine
      = Ret (e, m', σ') /\
    requests (events σ') =
      [(mkClient (Some (mkTransport (Some 7%positive))),
        "https://tikv-0:20180/config")].
Proof.
  destruct (new_manager_first_request (deps := Stub.load_deps) Stub.ToTLSConfig
              (Some "certs/pd.pem") "tikv-0:20180" Stub.empty_machine)
    as (mg & e & m' & σ' & Hnew & HL & _ & _ & Htls).
  exists mg, e, m', σ'. split; [exact Hnew |]. split; [exact HL |].
  apply (Htls "certs/pd.pem" 7%positive); reflexivity.
Defined.

(** ** Goroutines: progress *)

Import InterleavingMeasures.

Lemma goroutine_step_pos_ok tid g sl g' sl' evs :
  goroutine_step tid g sl = Some (g', sl', evs) -> pos_ok g'.
Proof.
  unfold goroutine_step, pos_ok.
  destruct (program g) as [| [[c |] |] rest] eqn:Ep;
    destruct (pos g) as [| c' |]; try discriminate;
    try (destruct sl as [l |]); intros [= <- <- <-]; simpl; eauto.
Qed.

(** A goroutine with a call left takes a step, which ends the call or
    enters it; a step from inside a call ends it. *)
Lemma goroutine_step_progress tid g sl k rest :
  pos_ok g -> program g = k :: rest ->
  exists g' sl' evs,
    goroutine_step tid g sl = Some (g', sl', evs) /\
    ((program g' = rest /\ pos g' = AtEntry) \/
     (pos g = AtEntry /\ program g' = k :: rest /\ pos g' <> AtEntry)).
Proof.
  unfold goroutine_step, pos_ok. intros Hok Hp. rewrite Hp.
  destruct (pos g) as [| c |].
  - destruct k as [[c |] |]; [| | destruct sl as [l |]];
      do 3 eexists; (split; [reflexivity |]); simpl; auto.
  - destruct Hok as (rest' & Hp'). rewrite Hp in Hp'. injection Hp' as -> _.
    do 3 eexists. split; [reflexivity |]. auto.
  - destruct Hok as (rest' & Hp'). rewrite Hp in Hp'. injection Hp' as -> _.
    do 3 eexists. split; [reflexivity |]. auto.
Qed.

Lemma goroutine_step_length tid g sl g' sl' evs :
  goroutine_step tid g sl = Some (g', sl', evs) ->
  (length (program g') <= length (program g))%nat.
Proof.
  unfold goroutine_step.
  destruct (program g) as [| [[c |] |] rest] eqn:Ep;
    destruct (pos g) as [| c' |]; try discriminate;
    try (destruct sl as [l |]); intros [= <- <- <-]; simpl; rewrite ?Ep; simpl; lia.
Qed.

Lemma step_at_own tid s g :
  pool s !! tid = Some g ->
  pool (step_at tid s) !! tid =
  Some (match goroutine_step tid g (slot s) with
        | Some (g', _, _) => g'
        | None => g
        end).
Proof.
  intros Hg. unfold step_at. rewrite Hg.
  destruct (goroutine_step tid g (slot s)) as [[[g' sl'] evs] |]; [| exact Hg].
  simpl. apply list_lookup_insert_eq. apply (lookup_lt_Some _ _ _ Hg).
Qed.

Lemma step_at_other tid tid' s :
  tid <> tid' -> pool (step_at tid' s) !! tid = pool s !! tid.
Proof.
  intros Hne. unfold step_at.
  destruct (pool s !! tid') as [g |]; [| reflexivity].
  destruct (goroutine_step tid' g (slot s)) as [[[g' sl'] evs] |]; [| reflexivity].
  simpl. apply list_lookup_insert_ne. congruence.
Qed.

Lemma run_schedule_others tid others : forall s,
  tid ∉ others -> pool (run_schedule others s) !! tid = pool s !! tid.
Proof.
  unfold run_schedule.
  induction others as [| t others IH]; intros s Hnot; simpl; [reflexivity |].
  rewrite IH.
  - apply step_at_other. intros ->. apply Hnot. apply elem_of_cons. auto.
  - intros Hin. apply Hnot. apply elem_of_cons. auto.
Qed.

Lemma run_schedule_app sch1 sch2 s :
  run_schedule (sch1 ++ sch2) s = run_schedule sch2 (run_schedule sch1 s).
Proof. unfold run_schedule. apply fold_left_app. Qed.

Lemma step_at_pos_ok tid s :
  (forall t g, pool s !! t = Some g -> pos_ok g) ->
  forall t g, pool (step_at tid s) !! t = Some g -> pos_ok g.
Proof.
  intros Hall t g. unfold step_at.
  destruct (pool s !! tid) as [g0 |] eqn:Eg; [| apply Hall].
  destruct (goroutine_step tid g0 (slot s)) as [[[g' sl'] evs] |] eqn:Es; [| apply Hall].
  simpl. intros Hg.
  apply list_lookup_insert_Some in Hg as [(_ & <- & _) | (_ & Hg)].
  - apply (goroutine_step_pos_ok _ _ _ _ _ _ Es).
  - apply (Hall _ _ Hg).
Qed.

Lemma run_schedule_pos_ok schedule : forall s,
  (forall t g, pool s !! t = Some g -> pos_ok g) ->
  forall t g, pool (run_schedule schedule s) !! t = Some g -> pos_ok g.
Proof.
  unfold run_schedule.
  induction schedule as [| tid schedule IH]; intros s Hall; simpl.
  - exact Hall.
  - apply IH. apply step_at_pos_ok. exact Hall.
Qed.

Lemma initial_pos_ok h programs t g :
  pool (initial h programs) !! t = Some g -> pos_ok g.
Proof.
  unfold initial. simpl. intros Hg. rewrite list_lookup_fmap in Hg.
  destruct (programs !! t); [| discriminate]. injection Hg as <-. exact I.
Qed.

(** X12: no call waits for another goroutine: in a system reached from the
    start, a goroutine that has a call left is done with that call after two
    steps of its own, whatever steps the others take before, between and
    after them; what it has left then is at most the calls that followed. *)
Theorem call_ends_in_two_steps (h : gmap loc StoreConfig)
    (programs : list (list call)) (schedule : list nat)
    (tid : nat) (g : goroutine) (k : call) (rest : list call)
    (others1 others2 others3 : list nat) :
  let s := run_schedule schedule (initial h programs) in
  pool s !! tid = Some g -> program g = k :: rest ->
  tid ∉ others1 -> tid ∉ others2 -> tid ∉ others3 ->
  exists g2,
    pool (run_schedule (others1 ++ [tid] ++ others2 ++ [tid] ++ others3) s) !! tid
      = Some g2 /\
    (length (program g2) <= length rest)%nat.
Proof.
  intros s Hg Hp H1 H2 H3.
  assert (Hok : forall s', (forall t g, pool s' !! t = Some g -> pos_ok g) ->
                forall sch t g, pool (run_schedule sch s') !! t = Some g -> pos_ok g).
  { intros s' Hs' sch. apply run_schedule_pos_ok. exact Hs'. }
  assert (Hs : forall t g, pool s !! t = Some g -> pos_ok g).
  { apply run_schedule_pos_ok. apply initial_pos_ok. }
  rewrite !run_schedule_app.
  set (s1 := run_schedule others1 s).
  assert (Hg1 : pool s1 !! tid = Some g).
  { unfold s1. rewrite run_schedule_others by exact H1. exact Hg. }
  assert (Hs1 : forall t g, pool s1 !! t = Some g -> pos_ok g).
  { apply run_schedule_pos_ok. exact Hs. }
  destruct (goroutine_step_progress tid g (slot s1) k rest (Hs1 _ _ Hg1) Hp)
    as (g' & sl' & evs & Es & Hcase).
  set (s2 := run_schedule [tid] s1).
  assert (Hg2 : pool s2 !! tid = Some g').
  { unfold s2. change (run_schedule [tid] s1) with (step_at tid s1).
    rewrite (step_at_own tid s1 g Hg1), Es. reflexivity. }
  assert (Hs2 : forall t g, pool s2 !! t = Some g -> pos_ok g).
  { apply run_schedule_pos_ok. exact Hs1. }
  set (s3 := run_schedule others2 s2).
  assert (Hg3 : pool s3 !! tid = Some g').
  { unfold s3. rewrite run_schedule_others by exact H2. exact Hg2. }
  assert (Hs3 : forall t g, pool s3 !! t = Some g -> pos_ok g).
  { apply run_schedule_pos_ok. exact Hs2. }
  rewrite run_schedule_others by exact H3.
  change (run_schedule [tid] s3) with (step_at tid s3).
  rewrite (step_at_own tid s3 g' Hg3).
  eexists. split; [reflexivity |].
  destruct Hcase as [[Hp' _] | (_ & Hp' & Hpos')].
  - destruct (goroutine_step tid g' (slot s3)) as [[[g2 sl2] evs2] |] eqn:Es2.
    + pose proof (goroutine_step_length _ _ _ _ _ _ Es2) as Hlen.
      rewrite Hp' in Hlen. exact Hlen.
    + rewrite Hp'. lia.
  - destruct (goroutine_step_progress tid g' (slot s3) k rest (Hs3 _ _ Hg3) Hp')
      as (g2 & sl2 & evs2 & Es2 & [[Hp2 _] | (Hpos2 & _)]).
    + rewrite Es2, Hp2. lia.
    + contradiction.
Qed.

Lemma call_ends_in_two_steps_witness :
  exists g2,
    pool (run_schedule ([0; 0] ++ [1] ++ [0] ++ [1] ++ [0])%nat
            (run_schedule [1]%nat
               (initial Stub.two_snapshots Stub.writer_and_reader))) !! 1%nat
      = Some g2 /\
    (length (program g2) <= 0)%nat.
Proof.
  apply (call_ends_in_two_steps Stub.two_snapshots Stub.writer_and_reader [1]%nat
           1%nat (mkGoroutine [CallGetStoreConfig] AtEntry) CallGetStoreConfig []
           [0; 0]%nat [0]%nat [0]%nat).
  - reflexivity.
  - reflexivity.
  - intros Hin. repeat (apply elem_of_cons in Hin as [Hin | Hin]; [discriminate Hin |]).
    apply elem_of_nil in Hin. exact Hin.
  - intros Hin. repeat (apply elem_of_cons in Hin as [Hin | Hin]; [discriminate Hin |]).
    apply elem_of_nil in Hin. exact Hin.
  - intros Hin. repeat (apply elem_of_cons in Hin as [Hin | Hin]; [discriminate Hin |]).
    apply elem_of_nil in Hin. exact Hin.
Defined.

(** ** Rendering *)

Lemma string_app_cons x (a b : string) :
  String.String x a +:+ b = String.String x (a +:+ b).
Proof. reflexivity. Qed.

Lemma string_app_nil_l (b : string) : "" +:+ b = b.
Proof. reflexivity. Qed.

Lemma string_app_assoc (a b c : string) : (a +:+ b) +:+ c = a +:+ (b +:+ c).
Proof.
  induction a as [| x a IH]; [reflexivity |].
  rewrite !string_app_cons. f_equal. exact IH.
Qed.

Lemma string_app_nil_r (a : string) : a +:+ "" = a.
Proof.
  induction a as [| x a IH]; [reflexivity |].
  rewrite string_app_cons. f_equal. exact IH.
Qed.

(** Appends are brought to the right and literal heads are unfolded. *)
Ltac str_norm :=
  repeat (rewrite string_app_assoc || rewrite string_app_cons
          || rewrite string_app_nil_l || rewrite string_app_nil_r).

Lemma all_chars_app p a b :
  Json.all_chars p (a +:+ b) = Json.all_chars p a && Json.all_chars p b.
Proof.
  induction a as [| x a IH]; [reflexivity |].
  rewrite string_app_cons. simpl. rewrite IH. apply andb_assoc.
Qed.

Lemma ws_app a b : Json.ws a = true -> Json.ws b = true -> Json.ws (a +:+ b) = true.
Proof. unfold Json.ws. intros Ha Hb. rewrite all_chars_app, Ha, Hb. reflexivity. Qed.

Lemma ws_copies n s : Json.ws s = true -> Json.ws (Json.copies n s) = true.
Proof.
  intros Hs. induction n as [| n IH]; [reflexivity |].
  apply (ws_app s (Json.copies n s)); assumption.
Qed.

Lemma ws_newline prefix indent depth :
  Json.ws prefix = true -> Json.ws indent = true ->
  Json.ws (Json.newline prefix indent depth) = true.
Proof.
  intros Hp Hi. unfold Json.newline.
  apply (ws_app Json.lf); [reflexivity |].
  apply ws_app; [assumption | apply ws_copies; assumption].
Qed.

(** *** Integers *)

Lemma digits_number_from d :
  Json.number_from Json.NInt (NilEmpty.string_of_uint d) = true.
Proof. induction d; simpl; assumption || reflexivity. Qed.

Lemma to_uint_head p :
  match Pos.to_uint p with
  | Decimal.Nil | Decimal.D0 _ => False
  | _ => True
  end.
Proof.
  pose proof (Unsigned.to_uint_nonzero p) as Hnz.
  assert (Hnorm : Decimal.unorm (Pos.to_uint p) = Pos.to_uint p).
  { rewrite <- Unsigned.to_of, Unsigned.of_to. reflexivity. }
  destruct (Pos.to_uint p) as [| u | | | | | | | | |] eqn:E; try exact I.
  - discriminate Hnorm.
  - rewrite unorm_D0 in Hnorm.
    destruct u as [| | | | | | | | | |] eqn:Eu; try discriminate Hnorm.
    + apply Hnz. reflexivity.
    + assert (Hu : Decimal.D0 u0 <> Decimal.Nil) by discriminate.
      apply nb_digits_unorm in Hu. rewrite Hnorm in Hu. simpl in Hu. lia.
Qed.

Lemma number_to_uint p :
  Json.number_from Json.NStart (NilZero.string_of_uint (Pos.to_uint p)) = true /\
  Json.number_from Json.NMinus (NilZero.string_of_uint (Pos.to_uint p)) = true.
Proof.
  pose proof (to_uint_head p) as Hh.
  destruct (Pos.to_uint p); try contradiction;
    simpl; split; apply digits_number_from.
Qed.

(** The decimal text of an integer is a JSON number. *)
Lemma number_FormatInt z : Json.number (Json.FormatInt z) = true.
Proof.
  unfold Json.number, Json.FormatInt.
  destruct z as [| p | p]; simpl.
  - reflexivity.
  - apply number_to_uint.
  - apply number_to_uint.
Qed.

(** *** Strings *)

Ltac bool_to_prop :=
  repeat match goal with
         | H : (_ && _) = true |- _ => apply andb_prop in H as [? ?]
         | H : (_ || _) = false |- _ => apply orb_false_elim in H as [? ?]
         | H : negb _ = true |- _ => apply negb_true_iff in H
         | H : negb _ = false |- _ => apply negb_false_iff in H
         | H : (_ <=? _)%N = true |- _ => apply N.leb_le in H
         | H : (_ <=? _)%N = false |- _ => apply N.leb_gt in H
         | H : (_ <? _)%N = true |- _ => apply N.ltb_lt in H
         | H : (_ <? _)%N = false |- _ => apply N.ltb_ge in H
         | H : (_ =? _)%N = true |- _ => apply N.eqb_eq in H
         | H : (_ =? _)%N = false |- _ => apply N.eqb_neq in H
         end.

Lemma is_hex_hex n : Json.is_hex (Json.hex n) = true.
Proof.
  destruct n as [| p]; [reflexivity |].
  do 5 (destruct p as [p | p |]; try reflexivity).
Qed.

(** A byte that is copied as it is: not a control character, not the double
    quote, not the backslash. *)
Lemma chars_plain a rest :
  (32 <= Json.byte a)%N -> Json.byte a <> 34%N -> Json.byte a <> 92%N ->
  Json.chars (String.String a rest) = Json.chars rest.
Proof.
  intros H32 H34 H92. simpl.
  apply N.eqb_neq in H92 as ->. apply N.eqb_neq in H34 as ->.
  apply N.leb_le in H32 as ->. reflexivity.
Qed.

Lemma chars_escape_byte short_bf a rest :
  Json.chars (Json.escape_byte short_bf a +:+ rest) = Json.chars rest.
Proof.
  unfold Json.escape_byte.
  destruct ((Json.byte a =? 92) || (Json.byte a =? 34))%N eqn:Eq.
  - rewrite !string_app_cons, string_app_nil_l.
    change (Json.chars (String.String "\" (String.String a rest)))
      with (if Json.is_short_escape a then Json.chars rest
            else if (Json.byte a =? 117)%N then
              match rest with
              | String.String h1 (String.String h2 (String.String h3 (String.String h4 r5))) =>
                  Json.is_hex h1 && Json.is_hex h2 && Json.is_hex h3 && Json.is_hex h4
                  && Json.chars r5
              | _ => false
              end
            else false).
    assert (Hs : Json.is_short_escape a = true).
    { unfold Json.is_short_escape.
      apply orb_true_iff in Eq as [E | E]; rewrite E;
        rewrite ?orb_true_r; reflexivity. }
    rewrite Hs. reflexivity.
  - destruct (Json.byte a =? 10)%N; [reflexivity |].
    destruct (Json.byte a =? 13)%N; [reflexivity |].
    destruct (Json.byte a =? 9)%N; [reflexivity |].
    destruct (short_bf && (Json.byte a =? 8)%N); [reflexivity |].
    destruct (short_bf && (Json.byte a =? 12)%N); [reflexivity |].
    rewrite !string_app_assoc, !string_app_cons, string_app_nil_l.
    simpl. rewrite !is_hex_hex. reflexivity.
Qed.

(** A rune that [DecodeRuneInString] accepts after a leading byte of 0x80 or
    more has its other bytes at 0x80 or more. *)
Lemma DecodeRuneInString_high a rest c size :
  (Json.byte a <? 0x80)%N = false ->
  Json.DecodeRuneInString (String.String a rest) = (c, size) ->
  (c = Json.RuneError /\ size = 1%nat) \/
  ((2 <= size)%nat /\ Json.high_prefix (size - 1) rest = true).
Proof.
  intros Hhigh. unfold Json.DecodeRuneInString. rewrite Hhigh.
  unfold Json.first.
  repeat match goal with
         | |- context [if ?b then _ else _] =>
             match b with
             | (_ <? _)%N => destruct b
             | (_ <=? _)%N => destruct b
             | (_ =? _)%N => destruct b
             end
         end;
    try (intros [= <- <-]; left; split; reflexivity);
    (destruct rest as [| a1 r1]; [intros [= <- <-]; left; split; reflexivity |]);
    (destruct (Json.within _ _ a1) eqn:E1;
     [| intros [= <- <-]; left; split; reflexivity]);
    unfold Json.within in E1; bool_to_prop.
  all: try (intros [= <- <-]; right; split; [lia |]; simpl;
            apply andb_true_iff; split; [apply N.leb_le; lia | reflexivity]).
  all: try (destruct r1 as [| a2 r2]; [intros [= <- <-]; left; split; reflexivity |];
            destruct (Json.within 128 191 a2) eqn:E2;
            [| intros [= <- <-]; left; split; reflexivity];
            unfold Json.within in E2; bool_to_prop;
            intros [= <- <-]; right; split; [lia |]; simpl;
            rewrite !andb_true_iff; repeat split; try reflexivity;
            apply N.leb_le; lia).
  all: destruct r1 as [| a2 [| a3 r3]]; try (intros [= <- <-]; left; split; reflexivity);
    destruct (Json.within 128 191 a2 && Json.within 128 191 a3) eqn:E2;
    [| intros [= <- <-]; left; split; reflexivity];
    unfold Json.within in E2; bool_to_prop;
    intros [= <- <-]; right; split; [lia |]; simpl;
    rewrite !andb_true_iff; repeat split; try reflexivity;
    apply N.leb_le; lia.
Qed.

Lemma escape_cons short_bf m a rest :
  Json.escape short_bf m (String.String a rest) =
  match m with
  | Json.Copy (S n) => String.String a (Json.escape short_bf (Json.Copy n) rest)
  | Json.Skip (S n) => Json.escape short_bf (Json.Skip n) rest
  | _ =>
      if (Json.byte a <? 0x80)%N then
        (if Json.htmlSafe a then String.String a EmptyString
         else Json.escape_byte short_bf a)
        +:+ Json.escape short_bf Json.Scan rest
      else
        let '(c, size) := Json.DecodeRuneInString (String.String a rest) in
        if (c =? Json.RuneError)%N && Nat.eqb size 1 then
          "\ufffd" +:+ Json.escape short_bf Json.Scan rest
        else if ((c =? 0x2028) || (c =? 0x2029))%N then
          "\u202" +:+ String.String (Json.hex (N.land c 15))
                    (Json.escape short_bf (Json.Skip (size - 1)) rest)
        else String.String a (Json.escape short_bf (Json.Copy (size - 1)) rest)
  end.
Proof. destruct m as [| [| n] | [| n]]; reflexivity. Qed.

(** At the start of a rune the loop writes characters of a JSON string and
    goes on in a mode that fits the rest. *)
Lemma chars_escape_scan short_bf a rest :
  (forall m, Json.mode_ok m rest = true ->
             Json.chars (Json.escape short_bf m rest) = true) ->
  Json.chars
    (if (Json.byte a <? 0x80)%N then
       (if Json.htmlSafe a then String.String a EmptyString
        else Json.escape_byte short_bf a)
       +:+ Json.escape short_bf Json.Scan rest
     else
       let '(c, size) := Json.DecodeRuneInString (String.String a rest) in
       if (c =? Json.RuneError)%N && Nat.eqb size 1 then
         "\ufffd" +:+ Json.escape short_bf Json.Scan rest
       else if ((c =? 0x2028) || (c =? 0x2029))%N then
         "\u202" +:+ String.String (Json.hex (N.land c 15))
                   (Json.escape short_bf (Json.Skip (size - 1)) rest)
       else String.String a (Json.escape short_bf (Json.Copy (size - 1)) rest))
  = true.
Proof.
  intros IH.
  destruct (Json.byte a <? 0x80)%N eqn:Hlow.
  - destruct (Json.htmlSafe a) eqn:Hsafe.
    + rewrite string_app_cons, string_app_nil_l.
      unfold Json.htmlSafe in Hsafe. bool_to_prop.
      rewrite chars_plain by assumption. apply IH. reflexivity.
    + rewrite chars_escape_byte. apply IH. reflexivity.
  - destruct (Json.DecodeRuneInString (String.String a rest)) as [c size] eqn:Ed.
    destruct (DecodeRuneInString_high _ _ _ _ Hlow Ed) as [[-> ->] | [Hsize Hhp]].
    + simpl. apply IH. reflexivity.
    + destruct ((c =? Json.RuneError)%N && Nat.eqb size 1) eqn:Eerr.
      { bool_to_prop. apply Nat.eqb_eq in H0. lia. }
      destruct ((c =? 0x2028) || (c =? 0x2029))%N.
      * rewrite !string_app_cons, string_app_nil_l. simpl.
        rewrite is_hex_hex. apply IH. reflexivity.
      * bool_to_prop. rewrite chars_plain by lia. apply IH. exact Hhp.
Qed.

Lemma chars_escape short_bf s : forall m,
  Json.mode_ok m s = true -> Json.chars (Json.escape short_bf m s) = true.
Proof.
  induction s as [| a rest IH]; intros m Hok; [reflexivity |].
  rewrite escape_cons.
  destruct m as [| [| n] | [| n]]; try apply (chars_escape_scan short_bf a rest IH).
  - simpl in Hok. bool_to_prop. rewrite chars_plain by lia. apply IH. assumption.
  - apply IH. reflexivity.
Qed.

(** A quoted string is the text of a JSON string. *)
Lemma value_text_quote short_bf s : Json.value_text (Json.quote short_bf s).
Proof.
  unfold Json.quote. apply Json.text_string. apply chars_escape. reflexivity.
Qed.

(** *** Values *)

Scheme value_members_ind := Induction for Json.value Sort Prop
  with members_value_ind := Induction for Json.members Sort Prop.

Combined Scheme value_and_members_ind from value_members_ind, members_value_ind.

Lemma member_text_line short_bf w k e :
  Json.ws w = true -> Json.element_text e ->
  Json.member_text (w +:+ Json.quote short_bf k +:+ ":" +:+ e).
Proof.
  intros Hw He.
  assert (E : w +:+ Json.quote short_bf k +:+ ":" +:+ e
              = w +:+ Json.dq +:+ Json.escape short_bf Json.Scan k +:+ Json.dq
                +:+ "" +:+ ":" +:+ e).
  { unfold Json.quote. str_norm. reflexivity. }
  rewrite E. apply Json.member_intro; try assumption; try reflexivity.
  apply chars_escape. reflexivity.
Qed.

Lemma encode_members_cons short_bf prefix indent depth k v rest :
  Json.encode_members short_bf prefix indent depth (Json.MCons k v rest) =
  Json.newline prefix indent (S depth) +:+ Json.quote short_bf k +:+ ": " +:+
  Json.encode short_bf prefix indent (S depth) v +:+
  match rest with
  | Json.MNil => Json.newline prefix indent depth
  | _ => "," +:+ Json.encode_members short_bf prefix indent depth rest
  end.
Proof. reflexivity. Qed.

Lemma encode_object short_bf prefix indent depth k v rest :
  Json.encode short_bf prefix indent depth (Json.Obj (Json.MCons k v rest)) =
  "{" +:+ Json.encode_members short_bf prefix indent depth (Json.MCons k v rest) +:+ "}".
Proof. reflexivity. Qed.

(** With a prefix and an indent of white space, the indented text of every
    value is the text of a JSON value, and that of the members of an object
    the text of its members. *)
Lemma encode_is_json short_bf prefix indent :
  Json.ws prefix = true -> Json.ws indent = true ->
  (forall v depth, Json.value_text (Json.encode short_bf prefix indent depth v)) /\
  (forall ms depth, ms <> Json.MNil ->
     Json.members_text (Json.encode_members short_bf prefix indent depth ms)).
Proof.
  intros Hp Hi.
  apply (value_and_members_ind
           (fun v => forall depth,
              Json.value_text (Json.encode short_bf prefix indent depth v))
           (fun ms => forall depth, ms <> Json.MNil ->
              Json.members_text (Json.encode_members short_bf prefix indent depth ms))).
  - intros depth. apply Json.text_null.
  - intros s depth. apply value_text_quote.
  - intros z depth. apply Json.text_number. apply number_FormatInt.
  - intros ms IHms depth. destruct ms as [| k v rest].
    + apply (Json.text_empty_object ""). reflexivity.
    + rewrite encode_object. apply Json.text_object. apply IHms. discriminate.
  - intros depth Hne. contradiction.
  - intros k v IHv rest IHrest depth _.
    rewrite encode_members_cons.
    destruct rest as [| k' v' rest'].
    + apply Json.members_one.
      assert (E : Json.newline prefix indent (S depth) +:+ Json.quote short_bf k +:+ ": "
                  +:+ Json.encode short_bf prefix indent (S depth) v
                  +:+ Json.newline prefix indent depth
                = Json.newline prefix indent (S depth) +:+ Json.quote short_bf k +:+ ":"
                  +:+ (" " +:+ Json.encode short_bf prefix indent (S depth) v
                       +:+ Json.newline prefix indent depth)).
      { str_norm. reflexivity. }
      rewrite E. apply member_text_line; [apply ws_newline; assumption |].
      apply Json.element_intro; [reflexivity | apply IHv | apply ws_newline; assumption].
    + assert (E : Json.newline prefix indent (S depth) +:+ Json.quote short_bf k +:+ ": "
                  +:+ Json.encode short_bf prefix indent (S depth) v
                  +:+ "," +:+ Json.encode_members short_bf prefix indent depth
                                (Json.MCons k' v' rest')
                = (Json.newline prefix indent (S depth) +:+ Json.quote short_bf k +:+ ":"
                   +:+ (" " +:+ Json.encode short_bf prefix indent (S depth) v +:+ ""))
                  +:+ "," +:+ Json.encode_members short_bf prefix indent depth
                                (Json.MCons k' v' rest')).
      { str_norm. reflexivity. }
      rewrite E. apply Json.members_more.
      * apply member_text_line; [apply ws_newline; assumption |].
        apply Json.element_intro; [reflexivity | apply IHv | reflexivity].
      * apply IHrest. discriminate.
Qed.

(** *** Lines *)

Lemma all_chars_cons p a rest :
  Json.all_chars p (String.String a rest) = p a && Json.all_chars p rest.
Proof. reflexivity. Qed.

Lemma printable_short_escape e : Json.is_short_escape e = true -> Json.printable e = true.
Proof.
  unfold Json.is_short_escape, Json.printable. intros Es. apply N.leb_le.
  repeat (apply orb_true_iff in Es as [Es | Es]);
    apply N.eqb_eq in Es; rewrite Es; lia.
Qed.

Lemma printable_hex h : Json.is_hex h = true -> Json.printable h = true.
Proof.
  unfold Json.is_hex, Json.is_digit, Json.within, Json.printable.
  intros Hh. apply N.leb_le.
  repeat (apply orb_true_iff in Hh as [Hh | Hh]); bool_to_prop; lia.
Qed.

Lemma chars_printable_upto n : forall s,
  (String.length s <= n)%nat -> Json.chars s = true ->
  Json.all_chars Json.printable s = true.
Proof.
  induction n as [| n IH]; intros s Hlen Hc.
  - destruct s; [reflexivity | simpl in Hlen; lia].
  - destruct s as [| a rest]; [reflexivity |].
    simpl in Hlen. rewrite all_chars_cons.
    destruct (Json.byte a =? 92)%N eqn:E92.
    + assert (Ha : Json.printable a = true).
      { unfold Json.printable. bool_to_prop. rewrite E92. reflexivity. }
      rewrite Ha. simpl andb.
      destruct rest as [| e r1]; [simpl in Hc; rewrite E92 in Hc; discriminate |].
      simpl in Hlen. rewrite all_chars_cons.
      simpl in Hc. rewrite E92 in Hc.
      destruct (Json.is_short_escape e) eqn:Es.
      * rewrite (printable_short_escape e Es). simpl andb.
        apply IH; [lia | assumption].
      * destruct (Json.byte e =? 117)%N eqn:Eu; [| discriminate].
        assert (He : Json.printable e = true).
        { unfold Json.printable. bool_to_prop. rewrite Eu. reflexivity. }
        rewrite He. simpl andb.
        destruct r1 as [| h1 [| h2 [| h3 [| h4 r5]]]]; try discriminate.
        simpl in Hlen. bool_to_prop.
        rewrite !all_chars_cons, !printable_hex by assumption. simpl andb.
        apply IH; [lia | assumption].
    + simpl in Hc. rewrite E92 in Hc. bool_to_prop.
      unfold Json.printable at 1.
      match goal with H : (32 <= Json.byte a)%N |- _ => apply N.leb_le in H; rewrite H end.
      simpl andb. apply IH; [lia | assumption].
Qed.

Lemma printable_quote short_bf s :
  Json.all_chars Json.printable (Json.quote short_bf s) = true.
Proof.
  unfold Json.quote. rewrite !all_chars_app.
  rewrite (chars_printable_upto _ _ (le_n _) (chars_escape short_bf s Json.Scan eq_refl)).
  reflexivity.
Qed.

Lemma printable_digits d :
  Json.all_chars Json.printable (NilEmpty.string_of_uint d) = true.
Proof. induction d; simpl; assumption || reflexivity. Qed.

Lemma printable_FormatInt z : Json.all_chars Json.printable (Json.FormatInt z) = true.
Proof.
  unfold Json.FormatInt.
  destruct z as [| p | p]; simpl; try reflexivity;
    pose proof (to_uint_head p) as Hh;
    destruct (Pos.to_uint p) eqn:E; try contradiction;
    simpl; rewrite ?printable_digits; reflexivity.
Qed.

Lemma quote_name short_bf :
  Json.quote short_bf "coprocessor" = Json.dq +:+ "coprocessor" +:+ Json.dq /\
  Json.quote short_bf "region-max-size" = Json.dq +:+ "region-max-size" +:+ Json.dq /\
  Json.quote short_bf "region-split-size" = Json.dq +:+ "region-split-size" +:+ Json.dq /\
  Json.quote short_bf "region-max-keys" = Json.dq +:+ "region-max-keys" +:+ Json.dq /\
  Json.quote short_bf "region-split-keys" = Json.dq +:+ "region-split-keys" +:+ Json.dq.
Proof. repeat split; reflexivity. Qed.

(** The text of [json.MarshalIndent(c, "", "  ")] for a non-nil snapshot,
    line by line. *)
Lemma MarshalIndent_lines short_bf s :
  fst (Json.MarshalIndent short_bf (Some s) "" "  ") =
  Json.unlines
    [ "{";
      "  " +:+ Json.dq +:+ "coprocessor" +:+ Json.dq +:+ ": {";
      "    " +:+ Json.dq +:+ "region-max-size" +:+ Json.dq +:+ ": "
        +:+ Json.quote short_bf (RegionMaxSize (StoreConfig_Coprocessor s)) +:+ ",";
      "    " +:+ Json.dq +:+ "region-split-size" +:+ Json.dq +:+ ": "
        +:+ Json.quote short_bf (RegionSplitSize (StoreConfig_Coprocessor s)) +:+ ",";
      "    " +:+ Json.dq +:+ "region-max-keys" +:+ Json.dq +:+ ": "
        +:+ Json.FormatInt (RegionMaxKeys (StoreConfig_Coprocessor s)) +:+ ",";
      "    " +:+ Json.dq +:+ "region-split-keys" +:+ Json.dq +:+ ": "
        +:+ Json.FormatInt (RegionSplitKeys (StoreConfig_Coprocessor s));
      "  }";
      "}" ].
Proof.
  destruct (quote_name short_bf) as (Q0 & Q1 & Q2 & Q3 & Q4).
  unfold Json.MarshalIndent, Json.of_StoreConfig, Json.of_Coprocessor.
  cbn [fst].
  rewrite encode_object, encode_members_cons, encode_object.
  rewrite !encode_members_cons.
  cbn [Json.encode].
  rewrite Q0, Q1, Q2, Q3, Q4.
  change (Json.newline "" "  " 0) with Json.lf.
  change (Json.newline "" "  " 1) with (Json.lf +:+ "  ").
  change (Json.newline "" "  " 2) with (Json.lf +:+ "    ").
  cbn [Json.unlines].
  unfold Json.quote. str_norm. reflexivity.
Qed.



(** The string encoder on a backslash, a line feed, U+2028, a byte that
    starts no rune, [<] and a rune of two bytes. *)
Example escape_example :
  Json.escape false Json.Scan
    (String.String "a" (String.String "092" (String.String "010"
      (String.String "226" (String.String "128" (String.String "168"
      (String.String "255" (String.String "<"
      (String.String "195" (String.String "169" EmptyString))))))))))
  = "a\\\n\u2028\ufffd\u003c"
    +:+ String.String "195" (String.String "169" EmptyString).
Proof. reflexivity. Qed.
